(** * vec.h: a header-prefixed dynamic array

    A shallow embedding of the macros of [vec.h] and the properties of the
    growable buffer they implement.

    The C macros work on a caller variable [v] (the handle, a pointer to
    element 0) and on the block that [VEC_REALLOC] returned for it: two
    [size_t] header words (length, capacity) followed by the element slots.
    Here the variable and its block are one value of type [world]; every
    macro is a function from a world to an [outcome], which is either the
    next world or the reason why there is none. *)

From stdpp Require Import base list.
From Stdlib Require Import ZArith Lia.

Local Open Scope Z_scope.

(** ** [size_t] arithmetic *)

(** [size_t] is taken to be 64 bits wide, and a header word 8 bytes. *)
Definition SIZE_BITS : Z := 64.
Definition SIZE_MOD : Z := 2 ^ SIZE_BITS.
Definition SIZEOF_SIZE_T : Z := 8.

(** Every [size_t] operation of the source is reduced modulo [SIZE_MOD]. *)
Definition wrap (n : Z) : Z := n mod SIZE_MOD.

(** ** Outcomes *)

(** What running a macro can lead to: the next state, a failed
    [VEC_ASSERT] ([Abort]), an access outside the allocated block or through
    a null pointer ([Undefined]), or the loop of [vec_new_cap] running for
    ever ([Diverge]). *)
Inductive outcome (A : Type) : Type :=
  | Ok (a : A)
  | Abort
  | Undefined
  | Diverge.

Arguments Ok {A} a.
Arguments Abort {A}.
Arguments Undefined {A}.
Arguments Diverge {A}.

Definition bind {A B : Type} (m : outcome A) (k : A -> outcome B) : outcome B :=
  match m with
  | Ok a => k a
  | Abort => Abort
  | Undefined => Undefined
  | Diverge => Diverge
  end.

Notation "x <- m ;; k" := (bind m (fun x => k))
  (at level 100, m at next level, right associativity).

(** ** The block behind a handle *)

(** One call of the reallocation primitive: the pointer it was given
    ([None] for a null pointer) and the size in bytes. *)
Definition realloc_call : Type := option Z * Z.

(** [c] is the smallest power of two that is at least [n]. *)
Definition smallest_pow2_ge (c n : Z) : Prop :=
  (exists k, 0 <= k /\ c = 2 ^ k) /\ n <= c /\
  forall k, 0 <= k -> n <= 2 ^ k -> c <= 2 ^ k.


(** ** A concrete configuration, for running the macros *)

(** An allocator that never fails and never reuses an address. *)
Definition bump_realloc (l : list realloc_call) : option Z :=
  Some (4096 * Z.of_nat (length l)).

Section Vec.

(** The element type of [vec_of(type)] and [sizeof(type)]. *)
Variable elt : Type.
Variable elt_size : positive.

(** [VEC_REALLOC]: the result of the newest call (the head of the list)
    given all calls made so far; [None] is a null result. *)
Variable VEC_REALLOC : list realloc_call -> option Z.

(** [VEC_GROW_RATE]: 1 selects the exact-fit [vec_new_cap], anything else
    the doubling one. *)
Variable VEC_GROW_RATE : Z.

(** A block as [VEC_REALLOC] returned it: its address, the two header
    words, and the slots that fit in it. A slot that was never written
    holds [None]. *)
Record block : Type := Block {
  origin : Z;
  hlen : Z;
  hcap : Z;
  data : list (option elt)
}.

(** The caller's variable [v] ([None] is [NULL]) and the calls of
    [VEC_REALLOC] so far, newest first. *)
Record world : Type := World {
  handle : option block;
  calls : list realloc_call
}.

Definition null_world : world := World None [].

(** [sizeof *v], at least 1 *)
Definition Vvsz : Z := Z.pos elt_size.

(** The address the caller holds: two words past the block's start. *)
Definition handle_addr (w : world) : option Z :=
  (fun b => origin b + SIZEOF_SIZE_T * 2) <$> handle w.

Definition slots (w : world) : list (option elt) :=
  match handle w with
  | Some b => data b
  | None => []
  end.

(** [vec_len(v)] and [vec_cap(v)] *)
Definition vec_len (w : world) : Z :=
  match handle w with
  | Some b => hlen b
  | None => 0
  end.

Definition vec_cap (w : world) : Z :=
  match handle w with
  | Some b => hcap b
  | None => 0
  end.

(** The live elements: the slots below [vec_len]. *)
Definition live (w : world) : list (option elt) :=
  take (Z.to_nat (vec_len w)) (slots w).

(** [v[i]], read *)
Definition vec_get (w : world) (i : Z) : option elt :=
  if 0 <=? i then mjoin (slots w !! Z.to_nat i) else None.

(** [vec_memsize(v, cap)] *)
Definition vec_memsize (cap : Z) : Z :=
  wrap (wrap (cap * Vvsz) + wrap (SIZEOF_SIZE_T * 2)).

(** [vec_set_len(v, len)] and [vec_set_cap(v, cap)]: a write through the
    handle, which must not be null. *)
Definition vec_set_len (w : world) (len : Z) : outcome world :=
  match handle w with
  | Some b => Ok (World (Some (Block (origin b) len (hcap b) (data b))) (calls w))
  | None => Undefined
  end.

Definition vec_set_cap (w : world) (cap : Z) : outcome world :=
  match handle w with
  | Some b => Ok (World (Some (Block (origin b) (hlen b) cap (data b))) (calls w))
  | None => Undefined
  end.

(** [(v)[i] = (x)]: a write to slot [i], which must lie in the block. *)
Definition vec_store (w : world) (i : Z) (x : elt) : outcome world :=
  match handle w with
  | Some b =>
      if (0 <=? i) && (i <? Z.of_nat (length (data b)))
      then Ok (World (Some (Block (origin b) (hlen b) (hcap b)
                                  (<[Z.to_nat i := Some x]> (data b))))
                     (calls w))
      else Undefined
  | None => Undefined
  end.

(** [memmove((v)+dst, (v)+src, nbytes)] in units of slots. Both pointers
    and both ranges must lie in the block. A byte count that is not a
    multiple of the element size leaves the last slot it reaches
    indeterminate. *)
Definition move_slots (d : list (option elt)) (dst src k : nat) : list (option elt) :=
  take dst d ++ take k (drop src d) ++ drop (dst + k) d.

Definition vec_memmove (w : world) (dst src nbytes : Z) : outcome world :=
  match handle w with
  | Some b =>
      let k := nbytes / Vvsz in
      let r := nbytes mod Vvsz in
      let reach := if r =? 0 then k else k + 1 in
      let n := Z.of_nat (length (data b)) in
      if (0 <=? src) && (0 <=? dst) && (src + reach <=? n) && (dst + reach <=? n)
      then
        let d1 := move_slots (data b) (Z.to_nat dst) (Z.to_nat src) (Z.to_nat k) in
        let d2 := if r =? 0 then d1 else <[Z.to_nat (dst + k) := None]> d1 in
        Ok (World (Some (Block (origin b) (hlen b) (hcap b) d2)) (calls w))
      else Undefined
  | None => Undefined
  end.

(** [vec_realloc(v, cap, len)]: the block is resized to
    [vec_memsize(v, cap)] bytes, keeping the header and the slots that
    still fit; a null result fails [VEC_ASSERT]; [v] is set two words
    past the new block; then both header words are written, which needs
    a block of two words at least. *)
Definition vec_realloc (w : world) (cap len : Z) : outcome world :=
  let vcap := cap in
  let vlen := len in
  let oldptr := origin <$> handle w in
  let size := vec_memsize vcap in
  let calls' := (oldptr, size) :: calls w in
  match VEC_REALLOC calls' with
  | None => Abort
  | Some newptr =>
      if size <? SIZEOF_SIZE_T * 2 then Undefined
      else
        let nslots := Z.to_nat ((size - SIZEOF_SIZE_T * 2) / Vvsz) in
        let w1 := World (Some (Block newptr (vec_len w) (vec_cap w)
                                     (resize nslots None (slots w))))
                        calls' in
        w2 <- vec_set_len w1 vlen ;;
        vec_set_cap w2 vcap
  end.

(** [vec_new_cap(out, cur, req)]. The doubling loop
    [for (out = cur ? cur : 1; out < req; out *= 2) {}] is run with fuel. *)
Fixpoint new_cap_loop (fuel : nat) (out req : Z) : outcome Z :=
  match fuel with
  | O => Diverge
  | S fuel' =>
      if out <? req then new_cap_loop fuel' (wrap (out * 2)) req else Ok out
  end.

(** After [SIZE_BITS] doublings the counter is 0 and stays there, so 65
    rounds decide the loop (lemma [new_cap_loop_stuck]). *)
Definition NEW_CAP_FUEL : nat := 65.

Definition vec_new_cap (cur req : Z) : outcome Z :=
  if VEC_GROW_RATE =? 1 then Ok req
  else new_cap_loop NEW_CAP_FUEL (if cur =? 0 then 1 else cur) req.

(** [vec_grow(v, cap)]. The argument becomes a [size_t] on entry, as the
    index of [vec_ins] and [vec_del] does below. The reallocation is not
    guarded by the comparison of the capacities. *)
Definition vec_grow (w : world) (cap : Z) : outcome world :=
  let reqcap := wrap cap in
  newcap <- match handle w with
            | Some b =>
                let curcap := hcap b in
                if curcap <? reqcap then vec_new_cap curcap reqcap else Ok reqcap
            | None => Ok reqcap
            end ;;
  vec_realloc w newcap (vec_len w).

(** ** Public API *)

(** [vec_init(v, cap)] *)
Definition vec_init (w : world) (cap : Z) : outcome world :=
  vec_grow w cap.

(** [vec_push(v, x)] *)
Definition vec_push (w : world) (x : elt) : outcome world :=
  let Vcap := vec_cap w in
  let Vlen := vec_len w in
  w1 <- (if (Vcap =? 0) || (Vcap <=? Vlen) then vec_grow w (wrap (Vcap + 1))
         else Ok w) ;;
  w2 <- vec_store w1 Vlen x ;;
  vec_set_len w2 (wrap (Vlen + 1)).

(** [vec_pop(v)] *)
Definition vec_pop (w : world) : outcome world :=
  vec_set_len w (wrap (vec_len w - 1)).

(** [vec_ins(v, i, x)] *)
Definition vec_ins (w : world) (i : Z) (x : elt) : outcome world :=
  let Vidx := wrap i in
  let Vlen := vec_len w in
  w1 <- vec_grow w (wrap (Vlen + 1)) ;;
  w2 <- vec_memmove w1 (Vidx + 1) Vidx (wrap (Vvsz * wrap (Vlen - Vidx))) ;;
  w3 <- vec_set_len w2 (wrap (Vlen + 1)) ;;
  vec_store w3 Vidx x.

(** [vec_del(v, i)] *)
Definition vec_del (w : world) (i : Z) : outcome world :=
  match handle w with
  | Some b =>
      let Vidx := wrap i in
      let Vlen := vec_len w in
      if Vidx <? Vlen then
        w1 <- vec_set_len w (wrap (Vlen - 1)) ;;
        vec_memmove w1 Vidx (Vidx + 1) (wrap (Vvsz * wrap (wrap (Vlen - Vidx) - 1)))
      else Ok w
  | None => Ok w
  end.

(** [vec_trim(v)] *)
Definition vec_trim (w : world) : outcome world :=
  match handle w with
  | Some b =>
      let Vlen := vec_len w in
      if Vlen <? vec_cap w then vec_realloc w Vlen Vlen else Ok w
  | None => Ok w
  end.

(** [vec_clear(v)] *)
Definition vec_clear (w : world) : outcome world :=
  match handle w with
  | Some b => vec_set_len w 0
  | None => Ok w
  end.

(** ** Sequences of operations *)

Fixpoint vec_push_all (w : world) (xs : list elt) : outcome world :=
  match xs with
  | [] => Ok w
  | x :: xs' => w' <- vec_push w x ;; vec_push_all w' xs'
  end.

Fixpoint vec_pop_n (n : nat) (w : world) : outcome world :=
  match n with
  | O => Ok w
  | S n' => w' <- vec_pop w ;; vec_pop_n n' w'
  end.

(** The public operations that change a buffer. *)
Inductive op : Type :=
  | OpInit (cap : Z)
  | OpPush (x : elt)
  | OpPop
  | OpIns (i : Z) (x : elt)
  | OpDel (i : Z)
  | OpTrim
  | OpClear.

Definition exec (o : op) (w : world) : outcome world :=
  match o with
  | OpInit cap => vec_init w cap
  | OpPush x => vec_push w x
  | OpPop => vec_pop w
  | OpIns i x => vec_ins w i x
  | OpDel i => vec_del w i
  | OpTrim => vec_trim w
  | OpClear => vec_clear w
  end.

(** The caller's side of the contract: no pop of an empty buffer, no
    insertion past the end. *)
Definition in_contract (o : op) (w : world) : Prop :=
  match o with
  | OpPop => 0 < vec_len w
  | OpIns i _ => 0 <= i <= vec_len w
  | _ => True
  end.

(** The same, and every [vec_init] asks for room for the elements that
    are already there. *)
Definition in_contract_init_covers (o : op) (w : world) : Prop :=
  match o with
  | OpInit cap => vec_len w <= wrap cap
  | _ => in_contract o w
  end.

(** The worlds that runs of allowed operations reach from [NULL]. *)
Inductive reachable (allowed : op -> world -> Prop) : world -> Prop :=
  | reach_null : reachable allowed null_world
  | reach_step o w w' :
      reachable allowed w -> allowed o w -> exec o w = Ok w' ->
      reachable allowed w'.

(** ** Predicates of the statements *)

(** A block of [cap] slots has a size that [size_t] can hold. *)
Definition fits (cap : Z) : Prop :=
  cap * Vvsz + SIZEOF_SIZE_T * 2 < SIZE_MOD.

(** The header tells the truth about the block: the length is at most
    the capacity and the block holds exactly [hcap] slots. *)
Definition sound (w : world) : Prop :=
  match handle w with
  | Some b =>
      0 <= hlen b <= hcap b /\ Z.of_nat (length (data b)) = hcap b /\ fits (hcap b)
  | None => True
  end.

(** The allocator always returns a block. *)
Definition never_fails : Prop := forall l, is_Some (VEC_REALLOC l).

(** The capacity that the growth policy picks when a block of [c] slots
    must take one more (lemma [vec_new_cap_one_more]). *)
Definition next_cap (c : Z) : Z :=
  if VEC_GROW_RATE =? 1 then c + 1 else if c =? 0 then 1 else 2 * c.

(** The test of [vec_push]: no free slot. *)
Definition full (w : world) : Prop :=
  vec_cap w = 0 \/ vec_cap w <= vec_len w.

(** The state after [n] pushes from [NULL] under the doubling policy. *)
Definition doubled (w : world) (n : Z) : Prop :=
  sound w /\ vec_len w = n /\
  vec_cap w = 2 ^ Z.log2_up n /\
  Z.of_nat (length (calls w)) = Z.log2_up n + 1.

(** ** The rest of the public API *)

(** Pointers into the block are addresses; [None] is [NULL]. *)

(** [vec_last(v)] and [vec_end(v)] *)
Definition vec_last (w : world) : option Z :=
  (fun v => v + vec_len w * Vvsz - 1 * Vvsz) <$> handle_addr w.

Definition vec_end (w : world) : option Z :=
  (fun v => v + vec_len w * Vvsz) <$> handle_addr w.

(** [(p) - (v)]: the difference of two element pointers, which has a
    value only if it is a whole number of elements. *)
Definition ptr_diff (p v : Z) : outcome Z :=
  if (p - v) mod Vvsz =? 0 then Ok ((p - v) / Vvsz) else Undefined.

(** [vec_insp(v, p, x)] *)
Definition vec_insp (w : world) (p : option Z) (x : elt) : outcome world :=
  match handle_addr w, p with
  | Some v, Some pa => i <- ptr_diff pa v ;; vec_ins w i x
  | _, _ => Ok w
  end.

(** [vec_delp(v, p)] *)
Definition vec_delp (w : world) (p : option Z) : outcome world :=
  match handle_addr w, p with
  | Some v, Some pa => i <- ptr_diff pa v ;; vec_del w i
  | _, _ => Ok w
  end.

(** [(v)[i]], read: the slot must lie in the block. *)
Definition vec_load (w : world) (i : Z) : outcome (option elt) :=
  match handle w with
  | Some b =>
      if (0 <=? i) && (i <? Z.of_nat (length (data b)))
      then Ok (mjoin (data b !! Z.to_nat i))
      else Undefined
  | None => Undefined
  end.

(** [vec_each(v, f)]: [for (Vi = 0; Vi < vec_len(v); Vi++) f(v[Vi])]. The
    callback works on a state of its own; [n] counts the rounds that are
    left. *)
Fixpoint each_from {T : Type} (w : world) (f : option elt -> T -> T)
    (n : nat) (Vi : Z) (s : T) : outcome T :=
  match n with
  | O => Ok s
  | S n' => e <- vec_load w Vi ;; each_from w f n' (Vi + 1) (f e s)
  end.

Definition vec_each {T : Type} (w : world) (f : option elt -> T -> T) (s : T)
    : outcome T :=
  each_from w f (Z.to_nat (vec_len w)) 0 s.

(** [vec_eachp(v, f)]: the same loop, handing [f] the address [v + Vi].
    Nothing is read. *)
Fixpoint eachp_from {T : Type} (v : Z) (f : Z -> T -> T)
    (n : nat) (Vi : Z) (s : T) : T :=
  match n with
  | O => s
  | S n' => eachp_from v f n' (Vi + 1) (f (v + Vi * Vvsz) s)
  end.

Definition vec_eachp {T : Type} (w : world) (f : Z -> T -> T) (s : T) : T :=
  match handle_addr w with
  | Some v => eachp_from v f (Z.to_nat (vec_len w)) 0 s
  | None => s
  end.

(** [vec_iter(v, T)]: [for (it = v, Vend = vec_end(v); it != Vend; it++)]
    followed by a body, run with fuel. *)
Fixpoint iter_loop {T : Type} (fuel : nat) (body : Z -> T -> T)
    (it Vend : Z) (s : T) : outcome T :=
  match fuel with
  | O => Diverge
  | S fuel' =>
      if it =? Vend then Ok s
      else iter_loop fuel' body (it + Vvsz) Vend (body it s)
  end.

Definition vec_iter {T : Type} (fuel : nat) (w : world) (body : Z -> T -> T)
    (s : T) : outcome T :=
  match handle_addr w, vec_end w with
  | Some v, Some e => iter_loop fuel body v e s
  | _, _ => Ok s
  end.

(** [vec_free(v)]: the pointer that [VEC_FREE] is called with, if it is
    called. The variable [v] keeps its value. *)
Definition vec_free (w : world) : option Z :=
  origin <$> handle w.

(** ** More predicates of the statements *)

(** The block that the allocator returned last. *)
Definition newest_block (l : list realloc_call) : option Z :=
  match l with
  | [] => None
  | _ :: _ => VEC_REALLOC l
  end.

(** Every call of the allocator was given the block of the call before
    it, and the first one a null pointer. *)
Fixpoint chained (l : list realloc_call) : Prop :=
  match l with
  | [] => True
  | c :: l' => c.1 = newest_block l' /\ chained l'
  end.

(** The contract of [in_contract], and every [vec_init] asks for room
    for the elements that are there, twice of which fits in [size_t]. *)
Definition in_contract_fitting (o : op) (w : world) : Prop :=
  match o with
  | OpInit cap => vec_len w <= cap /\ fits (2 * cap)
  | _ => in_contract o w
  end.

(** Every operation. *)
Definition any_op (o : op) (w : world) : Prop := True.

(** A sound buffer whose live elements have all been written. *)
Definition tidy (w : world) : Prop :=
  sound w /\ Forall is_Some (live w).

(** * Properties *)

(** ** Arithmetic of [size_t] *)

Lemma SIZE_MOD_eq : SIZE_MOD = 18446744073709551616.
Proof. reflexivity. Qed.

Lemma wrap_small n : 0 <= n < SIZE_MOD -> wrap n = n.
Proof. intros H. unfold wrap. now apply Z.mod_small. Qed.

Lemma wrap_range n : 0 <= wrap n < SIZE_MOD.
Proof. unfold wrap. apply Z.mod_pos_bound. rewrite SIZE_MOD_eq. lia. Qed.

Lemma wrap_le n : 0 <= n -> wrap n <= n.
Proof. intros H. unfold wrap. apply Z.mod_le; [lia | rewrite SIZE_MOD_eq; lia]. Qed.

Lemma outcome_bind_ok {A B : Type} (m : outcome A) (k : A -> outcome B) b :
  (x <- m ;; k x) = Ok b -> exists a, m = Ok a /\ k a = Ok b.
Proof. destruct m; simpl; try discriminate. eauto. Qed.

(** Takes a run [x <- m ;; k x = Ok _] apart, step by step. *)
Ltac bind_inv H :=
  repeat match type of H with
         | bind _ _ = Ok _ =>
             let a := fresh "w" in
             let Ha := fresh "Hrun" in
             apply outcome_bind_ok in H as (a & Ha & H)
         end.

Implicit Types (w : world) (b : block) (d : list (option elt)) (x : elt).

Lemma Vvsz_pos : 0 < Vvsz.
Proof. unfold Vvsz. lia. Qed.

Lemma fits_mono c c' : 0 <= c' <= c -> fits c -> fits c'.
Proof.
  unfold fits. intros H Hc. pose proof Vvsz_pos. nia.
Qed.

Lemma fits_lt c : 0 <= c -> fits c -> c < SIZE_MOD.
Proof.
  unfold fits, SIZEOF_SIZE_T. intros H Hc. pose proof Vvsz_pos. nia.
Qed.

(** ** The size of a block *)

Lemma vec_memsize_fits c :
  0 <= c -> fits c -> vec_memsize c = c * Vvsz + 16.
Proof.
  unfold fits, vec_memsize, SIZEOF_SIZE_T.
  intros H Hc. pose proof Vvsz_pos.
  rewrite (wrap_small (c * Vvsz)) by nia.
  rewrite (wrap_small (8 * 2)) by (rewrite SIZE_MOD_eq; lia).
  apply wrap_small. nia.
Qed.

Lemma vec_memsize_range c : 0 <= vec_memsize c < SIZE_MOD.
Proof. apply wrap_range. Qed.

Lemma slots_of_size c : 0 <= c -> (c * Vvsz + 16 - SIZEOF_SIZE_T * 2) / Vvsz = c.
Proof.
  intros H. pose proof Vvsz_pos. unfold SIZEOF_SIZE_T.
  replace (c * Vvsz + 16 - 8 * 2) with (c * Vvsz) by lia.
  apply Z.div_mul. lia.
Qed.

(** ** Reallocation *)

(** A request that fits gives a block of exactly [c] slots. *)
Lemma vec_realloc_fits w c n :
  never_fails -> 0 <= c -> fits c ->
  exists p,
    vec_realloc w c n =
    Ok (World (Some (Block p n c (resize (Z.to_nat c) None (slots w))))
              ((origin <$> handle w, c * Vvsz + 16) :: calls w)).
Proof.
  intros Hnf Hc Hfit. unfold vec_realloc.
  rewrite (vec_memsize_fits c Hc Hfit).
  destruct (Hnf ((origin <$> handle w, c * Vvsz + 16) :: calls w)) as [p ->].
  exists p. pose proof Vvsz_pos.
  destruct (Z.ltb_spec (c * Vvsz + 16) (SIZEOF_SIZE_T * 2)) as [Hlt | _].
  - unfold SIZEOF_SIZE_T in Hlt. nia.
  - now rewrite slots_of_size.
Qed.

(** Whatever the request, a reallocation that returns leaves the
    requested header and logs one more call. *)
Lemma vec_realloc_ok w c n w' :
  vec_realloc w c n = Ok w' ->
  vec_len w' = n /\ vec_cap w' = c /\ handle w' <> None /\
  calls w' = (origin <$> handle w, vec_memsize c) :: calls w.
Proof.
  unfold vec_realloc. intros H.
  destruct (VEC_REALLOC _) as [p |]; [| discriminate].
  destruct (_ <? _); [discriminate |].
  injection H as <-. now cbn.
Qed.

Lemma vec_realloc_inv w c n w' :
  vec_realloc w c n = Ok w' ->
  exists p,
    16 <= vec_memsize c /\
    w' = World (Some (Block p n c
                  (resize (Z.to_nat ((vec_memsize c - 16) / Vvsz)) None (slots w))))
               ((origin <$> handle w, vec_memsize c) :: calls w).
Proof.
  unfold vec_realloc. intros H.
  destruct (VEC_REALLOC _) as [p |]; [| discriminate].
  destruct (Z.ltb_spec (vec_memsize c) (SIZEOF_SIZE_T * 2)) as [| Hhdr]; [discriminate |].
  cbn in H. injection H as <-. exists p. unfold SIZEOF_SIZE_T in *.
  split; [lia | reflexivity].
Qed.

(** If slot [m] exists in a block that was reallocated for a capacity
    between [m + 1] and [2 * m + 1], the size of that block did not wrap
    around. *)
Lemma store_after_realloc_fits nc m :
  0 <= m -> m < nc <= 2 * m + 1 -> m * Vvsz < SIZE_MOD ->
  16 <= vec_memsize nc -> m < (vec_memsize nc - 16) / Vvsz ->
  fits nc.
Proof.
  intros Hm Hnc Hmsz Hhdr Hslot. pose proof Vvsz_pos as Hsz.
  assert (Hroom : (m + 1) * Vvsz <= vec_memsize nc - 16).
  { pose proof (Z.mul_div_le (vec_memsize nc - 16) Vvsz Hsz). nia. }
  pose proof (vec_memsize_range nc) as Hsize.
  assert (Hword : 16 < SIZE_MOD) by (rewrite SIZE_MOD_eq; lia).
  assert (Hdouble : 0 <= nc * Vvsz < 2 * SIZE_MOD) by nia.
  assert (Hnc' : nc * Vvsz <= (2 * m + 1) * Vvsz) by nia.
  clear Hslot Hsize. revert Hhdr Hroom. unfold vec_memsize, fits, SIZEOF_SIZE_T.
  rewrite (wrap_small (8 * 2)) by lia.
  destruct (Z.lt_ge_cases (nc * Vvsz) SIZE_MOD) as [Hsmall | Hbig].
  - rewrite (wrap_small (nc * Vvsz)) by lia.
    destruct (Z.lt_ge_cases (nc * Vvsz + 8 * 2) SIZE_MOD) as [Hfit | Hover]; [lia |].
    assert (Hw : wrap (nc * Vvsz + 8 * 2) = nc * Vvsz + 8 * 2 - SIZE_MOD).
    { unfold wrap. symmetry. apply (Z.mod_unique _ _ 1); lia. }
    rewrite Hw. lia.
  - assert (Hw : wrap (nc * Vvsz) = nc * Vvsz - SIZE_MOD).
    { unfold wrap. symmetry. apply (Z.mod_unique _ _ 1); lia. }
    rewrite Hw. intros _ Hroom.
    pose proof (wrap_le (nc * Vvsz - SIZE_MOD + 8 * 2) ltac:(lia)). lia.
Qed.

(** The block that a returning reallocation leaves: some number of whole
    slots, of a size that [size_t] holds. *)
Lemma vec_realloc_shape w c n w' :
  vec_realloc w c n = Ok w' ->
  exists p (k : nat),
    Z.of_nat k * Vvsz + 16 < SIZE_MOD /\
    w' = World (Some (Block p n c (resize k None (slots w))))
               ((origin <$> handle w, vec_memsize c) :: calls w).
Proof.
  unfold vec_realloc. intros H. pose proof Vvsz_pos as Hsz.
  pose proof (vec_memsize_range c) as Hsize.
  destruct (VEC_REALLOC _) as [p |]; [| discriminate].
  destruct (Z.ltb_spec (vec_memsize c) (SIZEOF_SIZE_T * 2)) as [| Hhdr]; [discriminate |].
  cbn in H. injection H as <-.
  exists p, (Z.to_nat ((vec_memsize c - SIZEOF_SIZE_T * 2) / Vvsz)).
  split; [| reflexivity]. unfold SIZEOF_SIZE_T in *.
  rewrite Z2Nat.id by (apply Z.div_pos; lia).
  pose proof (Z.mul_div_le (vec_memsize c - 8 * 2) Vvsz Hsz). lia.
Qed.

(** ** The growth policy *)

(** The loop stops at the first doubling that reaches the request, as
    long as no doubling overflows. *)
Lemma new_cap_loop_doubles (j : nat) : forall (fuel : nat) out req,
  (j < fuel)%nat -> 0 < out -> out * 2 ^ Z.of_nat j < SIZE_MOD ->
  req <= out * 2 ^ Z.of_nat j ->
  (forall i, 0 <= i < Z.of_nat j -> out * 2 ^ i < req) ->
  new_cap_loop fuel out req = Ok (out * 2 ^ Z.of_nat j).
Proof.
  induction j as [| j IH]; intros fuel out req Hfuel Hout Hmax Hreq Hbelow.
  - destruct fuel as [| fuel]; [lia |]. cbn [new_cap_loop].
    change (2 ^ Z.of_nat 0) with 1 in *.
    destruct (Z.ltb_spec out req); [lia |]. f_equal. lia.
  - destruct fuel as [| fuel]; [lia |]. cbn [new_cap_loop].
    assert (Hpow : 2 ^ Z.of_nat (S j) = 2 * 2 ^ Z.of_nat j).
    { rewrite Nat2Z.inj_succ, Z.pow_succ_r; lia. }
    assert (Hp : 0 < 2 ^ Z.of_nat j) by (apply Z.pow_pos_nonneg; lia).
    rewrite Hpow in *.
    specialize (Hbelow 0) as H0. change (2 ^ 0) with 1 in H0.
    destruct (Z.ltb_spec out req); [| lia].
    rewrite wrap_small by nia.
    replace (out * (2 * 2 ^ Z.of_nat j)) with (out * 2 * 2 ^ Z.of_nat j) by lia.
    apply IH; try lia.
    intros i Hi. specialize (Hbelow (i + 1)).
    rewrite Z.pow_add_r in Hbelow by lia. change (2 ^ 1) with 2 in Hbelow. lia.
Qed.

(** When the loop stops, the request is covered. *)
Lemma new_cap_loop_covers (fuel : nat) : forall out req c,
  new_cap_loop fuel out req = Ok c -> req <= c.
Proof.
  induction fuel as [| fuel IH]; intros out req c; cbn [new_cap_loop].
  - discriminate.
  - destruct (Z.ltb_spec out req); [apply IH |]. intros [= <-]. lia.
Qed.

(** More fuel does not change a result. *)
Lemma new_cap_loop_more_fuel (n : nat) : forall (m : nat) out req c,
  (n <= m)%nat -> new_cap_loop n out req = Ok c -> new_cap_loop m out req = Ok c.
Proof.
  induction n as [| n IH]; intros m out req c Hnm; cbn [new_cap_loop].
  - discriminate.
  - destruct m as [| m]; [lia |]. cbn [new_cap_loop].
    destruct (out <? req); [apply IH; lia | auto].
Qed.

Lemma new_cap_loop_cases (n : nat) : forall out req,
  new_cap_loop n out req = Diverge \/ exists c, new_cap_loop n out req = Ok c.
Proof.
  induction n as [| n IH]; intros out req; cbn [new_cap_loop]; [now left |].
  destruct (out <? req); [apply IH | right; eauto].
Qed.

Lemma new_cap_loop_split (k : nat) : forall (n : nat) out req,
  0 <= out < SIZE_MOD ->
  new_cap_loop (k + n) out req =
  match new_cap_loop k out req with
  | Diverge => new_cap_loop n (wrap (out * 2 ^ Z.of_nat k)) req
  | r => r
  end.
Proof.
  induction k as [| k IH]; intros n out req Hout.
  - cbn [new_cap_loop Nat.add]. change (2 ^ Z.of_nat 0) with 1.
    now rewrite Z.mul_1_r, wrap_small.
  - cbn [new_cap_loop Nat.add]. destruct (out <? req); [| reflexivity].
    rewrite IH by apply wrap_range.
    replace (wrap (wrap (out * 2) * 2 ^ Z.of_nat k))
      with (wrap (out * 2 ^ Z.of_nat (S k))); [reflexivity |].
    unfold wrap. rewrite Z.mul_mod_idemp_l by (rewrite SIZE_MOD_eq; lia).
    f_equal. rewrite Nat2Z.inj_succ, Z.pow_succ_r; lia.
Qed.

Lemma new_cap_loop_zero (n : nat) req :
  0 < req -> new_cap_loop n 0 req = Diverge.
Proof.
  intros Hreq. induction n as [| n IH]; cbn [new_cap_loop]; [reflexivity |].
  destruct (Z.ltb_spec 0 req); [| lia]. exact IH.
Qed.

(** A loop that has not stopped after [NEW_CAP_FUEL] rounds never stops:
    [Diverge] is not an artefact of the fuel. *)
Lemma new_cap_loop_stuck out req :
  0 <= out < SIZE_MOD ->
  new_cap_loop NEW_CAP_FUEL out req = Diverge ->
  forall n : nat, new_cap_loop n out req = Diverge.
Proof.
  intros Hout H65 n.
  change NEW_CAP_FUEL with (64 + 1)%nat in H65.
  rewrite new_cap_loop_split in H65 by exact Hout.
  destruct (new_cap_loop 64 out req) eqn:H64; try discriminate.
  assert (Hz : wrap (out * 2 ^ Z.of_nat 64) = 0).
  { unfold wrap. change (2 ^ Z.of_nat 64) with SIZE_MOD.
    apply Z.mod_mul. rewrite SIZE_MOD_eq. lia. }
  rewrite Hz in H65. cbn [new_cap_loop] in H65.
  destruct (Z.ltb_spec 0 req) as [Hreq |]; [| discriminate].
  destruct (Nat.le_gt_cases n 64) as [Hn | Hn].
  - destruct (new_cap_loop_cases n out req) as [| [c Hc]]; [assumption |].
    apply (new_cap_loop_more_fuel n 64) in Hc; [congruence | exact Hn].
  - replace n with (64 + (n - 64))%nat by lia.
    rewrite new_cap_loop_split by exact Hout.
    rewrite H64, Hz. now apply new_cap_loop_zero.
Qed.

Lemma vec_new_cap_covers cur req c :
  vec_new_cap cur req = Ok c -> req <= c.
Proof.
  unfold vec_new_cap. destruct (VEC_GROW_RATE =? 1).
  - intros [= <-]. lia.
  - apply new_cap_loop_covers.
Qed.

Lemma vec_new_cap_exact cur req :
  VEC_GROW_RATE = 1 -> vec_new_cap cur req = Ok req.
Proof. intros H. unfold vec_new_cap. now rewrite H. Qed.

(** Doubling, one step: what [vec_push] needs when the block is full. *)
Lemma vec_new_cap_double cur :
  VEC_GROW_RATE <> 1 -> 0 < cur -> 2 * cur < SIZE_MOD ->
  vec_new_cap cur (cur + 1) = Ok (2 * cur).
Proof.
  intros Hrate Hcur Hmax. unfold vec_new_cap.
  destruct (Z.eqb_spec VEC_GROW_RATE 1); [contradiction |].
  destruct (Z.eqb_spec cur 0); [lia |].
  rewrite (new_cap_loop_doubles 1 NEW_CAP_FUEL cur (cur + 1)).
  - f_equal. change (2 ^ Z.of_nat 1) with 2. lia.
  - unfold NEW_CAP_FUEL. lia.
  - exact Hcur.
  - change (2 ^ Z.of_nat 1) with 2. lia.
  - change (2 ^ Z.of_nat 1) with 2. lia.
  - intros i Hi. replace i with 0 by lia. change (2 ^ 0) with 1. lia.
Qed.

(** Doubling from an empty block: the smallest power of two that covers
    the request. *)
Lemma vec_new_cap_pow2 req :
  VEC_GROW_RATE <> 1 -> 1 <= req -> 2 ^ Z.log2_up req < SIZE_MOD ->
  vec_new_cap 0 req = Ok (2 ^ Z.log2_up req).
Proof.
  intros Hrate Hreq Hmax. unfold vec_new_cap.
  destruct (Z.eqb_spec VEC_GROW_RATE 1); [contradiction |].
  change (0 =? 0) with true. cbv iota.
  pose proof (Z.log2_up_nonneg req) as Hk.
  assert (Hk64 : Z.log2_up req < 64).
  { apply (Z.pow_lt_mono_r_iff 2); [lia | lia |]. exact Hmax. }
  rewrite (new_cap_loop_doubles (Z.to_nat (Z.log2_up req)) NEW_CAP_FUEL 1 req);
    rewrite ?Z2Nat.id by lia.
  - f_equal. lia.
  - unfold NEW_CAP_FUEL. lia.
  - lia.
  - lia.
  - destruct (Z.eq_dec req 1) as [-> | Hne]; [cbn; lia |].
    pose proof (Z.log2_up_spec req). lia.
  - intros i Hi. destruct (Z.eq_dec req 1) as [-> | Hne]; [cbn in Hi; lia |].
    pose proof (Z.log2_up_spec req ltac:(lia)) as [Hlo _].
    assert (2 ^ i <= 2 ^ Z.pred (Z.log2_up req)) by (apply Z.pow_le_mono_r; lia).
    lia.
Qed.

(** ** Growing *)

Lemma wrap_wrap n : wrap (wrap n) = wrap n.
Proof. apply wrap_small, wrap_range. Qed.

Lemma vec_grow_null w r :
  handle w = None -> vec_grow w r = vec_realloc w (wrap r) 0.
Proof. intros H. unfold vec_grow, vec_len. now rewrite H. Qed.

Lemma vec_grow_enough w b r :
  handle w = Some b -> wrap r <= hcap b ->
  vec_grow w r = vec_realloc w (wrap r) (hlen b).
Proof.
  intros H Hr. unfold vec_grow, vec_len. rewrite H.
  destruct (Z.ltb_spec (hcap b) (wrap r)); [lia | reflexivity].
Qed.

Lemma vec_grow_short w b r :
  handle w = Some b -> hcap b < wrap r ->
  vec_grow w r =
  (newcap <- vec_new_cap (hcap b) (wrap r) ;; vec_realloc w newcap (hlen b)).
Proof.
  intros H Hr. unfold vec_grow, vec_len. rewrite H.
  destruct (Z.ltb_spec (hcap b) (wrap r)); [reflexivity | lia].
Qed.

(** Whenever [vec_grow] returns, the length is kept, the request is
    covered, the handle is not null and the allocator was called once. *)
Lemma vec_grow_ok w r w' :
  vec_grow w r = Ok w' ->
  vec_len w' = vec_len w /\ wrap r <= vec_cap w' /\ handle w' <> None /\
  exists c, calls w' = c :: calls w.
Proof.
  unfold vec_grow. intros H.
  apply outcome_bind_ok in H as (nc & Hnc & H).
  apply vec_realloc_ok in H as (Hl & Hc & Hh & Hcalls).
  repeat split; try assumption; [| eauto].
  rewrite Hc. destruct (handle w) as [b |].
  - destruct (Z.ltb_spec (hcap b) (wrap r)).
    + now apply vec_new_cap_covers in Hnc.
    + injection Hnc as <-. lia.
  - injection Hnc as <-. lia.
Qed.

Lemma vec_grow_shape w r w' :
  vec_grow w r = Ok w' ->
  exists p c (k : nat),
    wrap r <= c /\ Z.of_nat k * Vvsz + 16 < SIZE_MOD /\
    w' = World (Some (Block p (vec_len w) c (resize k None (slots w))))
               ((origin <$> handle w, vec_memsize c) :: calls w).
Proof.
  intros H. pose proof (vec_grow_ok w r w' H) as (_ & Hc & _).
  unfold vec_grow in H. apply outcome_bind_ok in H as (nc & _ & H).
  apply vec_realloc_shape in H as (p & k & Hk & ->).
  exists p, nc, k. cbn [vec_cap handle hcap] in Hc. now split_and!.
Qed.

(** A block that is large enough is reallocated all the same, to the
    request. *)
Lemma vec_grow_enough_reallocates w b r :
  never_fails -> sound w -> handle w = Some b -> 0 <= r <= hcap b ->
  exists w',
    vec_grow w r = Ok w' /\ vec_cap w' = r /\
    calls w' = (Some (origin b), r * Vvsz + 16) :: calls w.
Proof.
  intros Hnf Hs Hh Hr. unfold sound in Hs. rewrite Hh in Hs.
  destruct Hs as (Hlen & _ & Hfit).
  pose proof (fits_lt (hcap b) ltac:(lia) Hfit) as Hmax.
  rewrite (vec_grow_enough w b r Hh), wrap_small by (rewrite ?wrap_small; lia).
  destruct (vec_realloc_fits w r (hlen b) Hnf ltac:(lia)) as [p Hp].
  { apply (fits_mono (hcap b)); [lia | exact Hfit]. }
  rewrite Hp, Hh. eexists. split_and!; reflexivity.
Qed.

(** Under the doubling policy a block of capacity 0 grows to the smallest
    power of two that covers the request. *)
Lemma vec_grow_empty_block_pow2 w b r :
  VEC_GROW_RATE <> 1 -> never_fails ->
  handle w = Some b -> hcap b = 0 -> 1 <= r -> fits (2 ^ Z.log2_up r) ->
  exists w', vec_grow w r = Ok w' /\ vec_cap w' = 2 ^ Z.log2_up r.
Proof.
  intros Hrate Hnf Hh Hcap Hr Hfit.
  pose proof (Z.log2_up_nonneg r) as Hk.
  assert (Hpos : 0 < 2 ^ Z.log2_up r) by (apply Z.pow_pos_nonneg; lia).
  pose proof (fits_lt (2 ^ Z.log2_up r) ltac:(lia) Hfit) as Hmax.
  assert (Hle : r <= 2 ^ Z.log2_up r) by (apply Z.log2_up_le_pow2; lia).
  rewrite (vec_grow_short w b r Hh), wrap_small, Hcap by (rewrite ?wrap_small; lia).
  rewrite vec_new_cap_pow2 by assumption. cbn [bind].
  destruct (vec_realloc_fits w (2 ^ Z.log2_up r) (hlen b) Hnf ltac:(lia) Hfit) as [p Hp].
  rewrite Hp. eexists. split; reflexivity.
Qed.

(** The capacity that [vec_new_cap] picks when one more slot is asked of
    a block of [c] slots. *)
Lemma next_cap_range c : 0 <= c -> c + 1 <= next_cap c <= 2 * c + 1.
Proof.
  intros Hc. unfold next_cap.
  destruct (VEC_GROW_RATE =? 1); [lia |]. destruct (Z.eqb_spec c 0); lia.
Qed.

Lemma vec_new_cap_one_more c :
  0 <= c -> next_cap c < SIZE_MOD ->
  vec_new_cap c (c + 1) = Ok (next_cap c).
Proof.
  intros Hc Hmax. unfold next_cap in *.
  destruct (Z.eqb_spec VEC_GROW_RATE 1) as [Hrate | Hrate].
  - now apply vec_new_cap_exact.
  - destruct (Z.eqb_spec c 0) as [Hc0 | Hc0].
    + rewrite Hc0. change (0 + 1) with 1.
      now rewrite (vec_new_cap_pow2 1) by (exact Hrate || lia || reflexivity).
    + apply vec_new_cap_double; lia.
Qed.

(** Growing for one more element, as [vec_ins] does and as [vec_push]
    does on a full block: the result has a free slot after the live ones. *)
Lemma vec_grow_one_more w :
  never_fails -> sound w ->
  (vec_cap w <= vec_len w -> fits (next_cap (vec_cap w))) ->
  exists p nc,
    vec_len w + 1 <= nc /\ fits nc /\
    (vec_len w < vec_cap w -> nc = vec_len w + 1) /\
    (vec_cap w <= vec_len w -> nc = next_cap (vec_cap w)) /\
    vec_grow w (wrap (vec_len w + 1)) =
    Ok (World (Some (Block p (vec_len w) nc (resize (Z.to_nat nc) None (slots w))))
              ((origin <$> handle w, nc * Vvsz + 16) :: calls w)).
Proof.
  intros Hnf Hs Hroom. unfold sound in Hs. unfold vec_len, vec_cap in *.
  destruct (handle w) as [b |] eqn:Hh.
  - destruct Hs as (Hlen & Hdata & Hfit).
    pose proof (fits_lt (hcap b) ltac:(lia) Hfit) as Hcap.
    destruct (Z.lt_ge_cases (hlen b) (hcap b)) as [Hfree | Hfull].
    + rewrite (vec_grow_enough w b) by (rewrite ?wrap_wrap, ?wrap_small; lia || assumption).
      rewrite wrap_wrap, wrap_small by lia.
      destruct (vec_realloc_fits w (hlen b + 1) (hlen b) Hnf) as [p Hp];
        [lia | apply (fits_mono (hcap b)); [lia | exact Hfit] |].
      exists p, (hlen b + 1). split_and!; try lia.
      * apply (fits_mono (hcap b)); [lia | exact Hfit].
      * rewrite Hh in Hp. exact Hp.
    + assert (Hsame : hlen b = hcap b) by lia.
      specialize (Hroom Hfull).
      pose proof (next_cap_range (hcap b) ltac:(lia)) as Hrange.
      pose proof (fits_lt (next_cap (hcap b)) ltac:(lia) Hroom) as Hmax.
      rewrite (vec_grow_short w b) by (rewrite ?wrap_wrap, ?wrap_small; lia || assumption).
      rewrite wrap_wrap, wrap_small by lia.
      rewrite Hsame, vec_new_cap_one_more by lia. cbn [bind].
      destruct (vec_realloc_fits w (next_cap (hcap b)) (hcap b) Hnf) as [p Hp];
        [lia | exact Hroom |].
      exists p, (next_cap (hcap b)). split_and!; try lia; try assumption.
      rewrite Hh in Hp. exact Hp.
  - specialize (Hroom ltac:(lia)).
    assert (Hone : next_cap 0 = 1).
    { unfold next_cap. now destruct (VEC_GROW_RATE =? 1). }
    rewrite Hone in *.
    rewrite vec_grow_null by exact Hh.
    rewrite wrap_wrap, wrap_small by (rewrite SIZE_MOD_eq; lia).
    destruct (vec_realloc_fits w 1 0 Hnf) as [p Hp]; [lia | exact Hroom |].
    exists p, 1. split_and!; try lia; try assumption.
    rewrite Hh in Hp. exact Hp.
Qed.

(** ** Moving slots *)

Lemma move_slots_length d (dst src k : nat) :
  (src + k <= length d)%nat -> (dst + k <= length d)%nat ->
  length (move_slots d dst src k) = length d.
Proof.
  intros Hsrc Hdst. unfold move_slots.
  rewrite !length_app, !length_take, !length_drop. lia.
Qed.

Lemma insert_take_last d (i : nat) y :
  (i < length d)%nat -> <[i := y]> (take (S i) d) = take i d ++ [y].
Proof.
  intros Hi. destruct (lookup_lt_is_Some_2 d i Hi) as [z Hz].
  rewrite (take_S_r d i z Hz).
  rewrite insert_app_r_alt by (rewrite length_take; lia).
  rewrite length_take. replace (i - i `min` length d)%nat with 0%nat by lia.
  reflexivity.
Qed.

Lemma take_grown d (n nc : nat) :
  (n <= length d)%nat -> (n <= nc)%nat -> take n (resize nc None d) = take n d.
Proof.
  intros Hn Hnc. rewrite take_resize_le by exact Hnc. now apply resize_le.
Qed.

(** The shift of [vec_ins] followed by its store, seen on the live part. *)
Lemma ins_slots d (i n : nat) y :
  (i <= n)%nat -> (n < length d)%nat ->
  take (S n) (<[i := y]> (move_slots d (S i) i (n - i))) =
  take i (take n d) ++ y :: drop i (take n d).
Proof.
  intros Hi Hn. unfold move_slots.
  rewrite insert_app_l by (rewrite length_take; lia).
  rewrite insert_take_last by lia.
  rewrite <- !app_assoc. cbn [app].
  rewrite take_app_ge by (rewrite length_take; lia).
  rewrite length_take. replace (S n - i `min` length d)%nat with (S (n - i)) by lia.
  cbn [take]. rewrite take_app_le by (rewrite length_take, length_drop; lia).
  rewrite take_idemp.
  rewrite take_take. replace (i `min` n)%nat with i by lia.
  rewrite take_drop_commute. replace (i + (n - i))%nat with n by lia.
  reflexivity.
Qed.

(** The shift of [vec_del], seen on the live part. *)
Lemma del_slots d (i n : nat) :
  (i < n)%nat -> (n <= length d)%nat ->
  take (n - 1) (move_slots d i (S i) (n - i - 1)) =
  take i (take n d) ++ drop (S i) (take n d).
Proof.
  intros Hi Hn. unfold move_slots.
  rewrite take_app_ge by (rewrite length_take; lia).
  rewrite length_take. replace (n - 1 - i `min` length d)%nat with (n - i - 1)%nat by lia.
  rewrite take_app_le by (rewrite length_take, length_drop; lia).
  rewrite take_idemp.
  rewrite take_take. replace (i `min` n)%nat with i by lia.
  rewrite take_drop_commute. replace (S i + (n - i - 1))%nat with n by lia.
  reflexivity.
Qed.

(** The store of [vec_push] into the first free slot of a grown block. *)
Lemma push_slots d (n nc : nat) y :
  (n <= length d)%nat -> (n < nc)%nat ->
  take (S n) (<[n := y]> (resize nc None d)) = take n d ++ [y].
Proof.
  intros Hn Hnc.
  rewrite take_insert_lt by lia.
  rewrite insert_take_last by (rewrite length_resize; lia).
  now rewrite take_grown by lia.
Qed.

(** ** Push *)

Lemma sound_bounds w :
  sound w ->
  0 <= vec_len w <= vec_cap w /\ vec_cap w < SIZE_MOD /\
  Z.of_nat (length (slots w)) = vec_cap w.
Proof.
  unfold sound, vec_len, vec_cap, slots. destruct (handle w) as [b |].
  - intros (Hlen & Hdata & Hfit). pose proof (fits_lt (hcap b) ltac:(lia) Hfit). lia.
  - intros _. rewrite SIZE_MOD_eq. cbn. lia.
Qed.

Lemma sound_full_iff w : sound w -> full w <-> vec_cap w <= vec_len w.
Proof.
  unfold sound, full, vec_cap, vec_len. destruct (handle w) as [b |]; [| lia].
  intros (Hlen & _). lia.
Qed.

Lemma vec_push_test w :
  (vec_cap w =? 0) || (vec_cap w <=? vec_len w) = true <-> full w.
Proof.
  unfold full. rewrite orb_true_iff, Z.eqb_eq, Z.leb_le. reflexivity.
Qed.

(** Whenever [vec_push] returns on a sound buffer, it has appended. *)
Lemma vec_push_ok w x w' :
  sound w -> vec_push w x = Ok w' ->
  vec_len w' = vec_len w + 1 /\
  live w' = live w ++ [Some x] /\
  (~ full w -> calls w' = calls w).
Proof.
  intros Hs Hrun. destruct (sound_bounds w Hs) as (Hlen & Hmax & Hslots).
  pose proof Vvsz_pos as Hsz.
  unfold vec_push in Hrun. bind_inv Hrun.
  destruct ((vec_cap w =? 0) || (vec_cap w <=? vec_len w)) eqn:Htest.
  - apply vec_push_test in Htest.
    apply vec_grow_shape in Hrun0 as (p & c & k & _ & Hk & ->).
    revert Hrun1. unfold vec_store. cbn [handle data hlen hcap origin calls].
    rewrite length_resize.
    destruct (Z.leb_spec 0 (vec_len w)); [| discriminate].
    destruct (Z.ltb_spec (vec_len w) (Z.of_nat k)) as [Hfree |]; [| discriminate].
    cbn [andb]. intros [= <-].
    revert Hrun. unfold vec_set_len. cbn [handle data hlen hcap origin calls].
    rewrite wrap_small by nia. intros [= <-].
    unfold live. cbn [vec_len slots handle data hlen hcap origin calls].
    split_and!; [reflexivity | | intros Hnot; contradiction].
    replace (Z.to_nat (vec_len w + 1)) with (S (Z.to_nat (vec_len w))) by lia.
    apply push_slots; lia.
  - injection Hrun0 as <-.
    assert (Hnot : ~ full w) by (intros Hf; apply vec_push_test in Hf; congruence).
    assert (Hfree : vec_len w < vec_cap w) by (rewrite sound_full_iff in Hnot by exact Hs; lia).
    revert Hrun1 Hrun Hlen Hmax Hslots Hfree. clear Hs Htest Hnot.
    unfold vec_store, vec_set_len, live, vec_len, vec_cap, slots.
    destruct w as [[b |] cs]; cbn [handle data hlen hcap origin calls]; [| discriminate].
    destruct (_ && _); [| discriminate]. intros [= <-].
    cbn [handle data hlen hcap origin calls]. intros [= <-] Hlen Hmax Hslots Hfree.
    rewrite wrap_small by lia.
    cbn [handle data hlen hcap origin calls].
    split_and!; [reflexivity | | reflexivity].
    replace (Z.to_nat (hlen b + 1)) with (S (Z.to_nat (hlen b))) by lia.
    rewrite take_insert_lt by lia. apply insert_take_last. lia.
Qed.

(** What [vec_push] asks of [vec_grow] on a full sound buffer. *)
Lemma vec_push_grow_full w :
  sound w -> full w -> vec_cap w + 1 < SIZE_MOD ->
  vec_grow w (wrap (vec_cap w + 1)) =
  (newcap <- match handle w with
             | Some _ => vec_new_cap (vec_cap w) (vec_cap w + 1)
             | None => Ok 1
             end ;;
   vec_realloc w newcap (vec_len w)).
Proof.
  intros Hs Hfull Hmax. destruct (sound_bounds w Hs) as (Hlen & _).
  revert Hlen Hmax. unfold vec_grow, vec_cap, vec_len.
  destruct (handle w) as [b |]; intros Hlen Hmax.
  - rewrite wrap_wrap, wrap_small by lia.
    destruct (Z.ltb_spec (hcap b) (hcap b + 1)); [reflexivity | lia].
  - rewrite wrap_wrap, wrap_small by lia. reflexivity.
Qed.

(** Whenever [vec_push] returns on a full sound buffer for which the
    policy picks [next_cap], the new block has exactly that capacity: its
    size did not wrap around. *)
Lemma vec_push_ok_grown w x w' :
  sound w -> full w -> next_cap (vec_cap w) < SIZE_MOD ->
  vec_push w x = Ok w' ->
  sound w' /\ fits (next_cap (vec_cap w)) /\
  vec_cap w' = next_cap (vec_cap w) /\
  exists c, calls w' = c :: calls w.
Proof.
  intros Hs Hfull Hmax Hrun.
  destruct (sound_bounds w Hs) as (Hlen & Hcmax & Hslots).
  pose proof (proj1 (sound_full_iff w Hs) Hfull) as Hle.
  pose proof (next_cap_range (vec_cap w) ltac:(lia)) as Hrange.
  pose proof Vvsz_pos as Hsz.
  assert (Hbytes : vec_len w * Vvsz < SIZE_MOD).
  { revert Hs Hlen. unfold sound, vec_len, vec_cap, fits, SIZEOF_SIZE_T.
    destruct (handle w) as [b |]; [| rewrite SIZE_MOD_eq; lia].
    intros (_ & _ & Hfit) Hlen. nia. }
  assert (Hpick : match handle w with
                  | Some _ => vec_new_cap (vec_cap w) (vec_cap w + 1)
                  | None => Ok 1
                  end = Ok (next_cap (vec_cap w))).
  { destruct (handle w) as [b |] eqn:Hh.
    - apply vec_new_cap_one_more; lia.
    - unfold vec_cap. rewrite Hh. unfold next_cap.
      now destruct (VEC_GROW_RATE =? 1). }
  unfold vec_push in Hrun.
  rewrite (proj2 (vec_push_test w) Hfull) in Hrun.
  rewrite vec_push_grow_full, Hpick in Hrun by (assumption || lia).
  cbn [bind] in Hrun. bind_inv Hrun.
  apply vec_realloc_inv in Hrun0 as (p & Hhdr & ->).
  revert Hrun1. unfold vec_store. cbn [handle data hlen hcap origin calls].
  rewrite length_resize.
  destruct (Z.leb_spec 0 (vec_len w)); [| discriminate].
  destruct (Z.ltb_spec (vec_len w)
              (Z.of_nat (Z.to_nat ((vec_memsize (next_cap (vec_cap w)) - 16) / Vvsz))))
    as [Hslot |]; [| discriminate].
  rewrite Z2Nat.id in Hslot by (apply Z.div_pos; lia).
  assert (Hfit : fits (next_cap (vec_cap w))).
  { apply (store_after_realloc_fits _ (vec_len w)); try assumption; lia. }
  rewrite vec_memsize_fits by (lia || assumption).
  rewrite slots_of_size by lia.
  cbn [andb]. intros [= <-].
  revert Hrun. unfold vec_set_len. cbn [handle data hlen hcap origin calls].
  rewrite wrap_small by lia. intros [= <-].
  unfold sound. cbn [vec_cap handle data hlen hcap origin calls].
  rewrite length_insert, length_resize, Z2Nat.id by lia.
  split_and!; try assumption; try lia; eauto.
Qed.

(** What [vec_push] does to a sound buffer. *)
Lemma vec_push_spec w x :
  sound w ->
  (full w -> never_fails /\ fits (next_cap (vec_cap w))) ->
  exists w',
    vec_push w x = Ok w' /\ sound w' /\
    vec_len w' = vec_len w + 1 /\
    live w' = live w ++ [Some x] /\
    (~ full w ->
     calls w' = calls w /\ vec_cap w' = vec_cap w /\
     handle_addr w' = handle_addr w) /\
    (full w ->
     (exists c, calls w' = c :: calls w) /\ vec_cap w' = next_cap (vec_cap w)).
Proof.
  intros Hs Hroom. unfold vec_push.
  destruct ((vec_cap w =? 0) || (vec_cap w <=? vec_len w)) eqn:Htest.
  - apply vec_push_test in Htest. destruct (Hroom Htest) as [Hnf Hfit].
    pose proof (proj1 (sound_full_iff w Hs) Htest) as Hfull.
    assert (Hsame : vec_cap w = vec_len w /\ 0 <= vec_len w /\
                    (Z.to_nat (vec_len w) <= length (slots w))%nat).
    { revert Hs Hfull. unfold sound, vec_cap, vec_len, slots.
      destruct (handle w) as [b |]; cbn; lia. }
    destruct Hsame as (Hsame & Hlen0 & Hslots).
    destruct (vec_grow_one_more w Hnf Hs (fun _ => Hfit))
      as (p & nc & Hnc & Hfitnc & _ & Hpick & Hgrow).
    rewrite Hsame, Hgrow. cbn [bind].
    pose proof (fits_lt nc ltac:(lia) Hfitnc) as Hncmax.
    unfold vec_store. cbn [handle data hlen hcap origin calls].
    rewrite length_resize, Z2Nat.id by lia.
    destruct (Z.leb_spec 0 (vec_len w)); [| lia].
    destruct (Z.ltb_spec (vec_len w) nc); [| lia].
    cbn [andb bind]. unfold vec_set_len. cbn [handle data hlen hcap origin calls].
    rewrite wrap_small by lia.
    eexists. split; [reflexivity |].
    unfold sound, live.
    cbn [vec_len vec_cap slots handle data hlen hcap origin calls].
    rewrite length_insert, length_resize, Z2Nat.id by lia.
    split_and!; try lia; try assumption.
    + replace (Z.to_nat (vec_len w + 1)) with (S (Z.to_nat (vec_len w))) by lia.
      apply push_slots; lia.
    + intros Hnot. contradiction.
    + intros _. split; [eauto |]. rewrite <- Hsame. apply Hpick. lia.
  - assert (Hnot : ~ full w).
    { intros Hf. apply vec_push_test in Hf. congruence. }
    assert (Hfree : vec_len w < vec_cap w).
    { rewrite sound_full_iff in Hnot by exact Hs. lia. }
    cbn [bind]. revert Hs Hfree. clear Hroom Htest.
    unfold sound, vec_store, vec_set_len, live, vec_len, vec_cap, slots, handle_addr, full in *.
    destruct w as [[b |] cs]; cbn [handle data hlen hcap origin calls] in *; [| lia].
    intros (Hlen & Hdata & Hfit) Hfree.
    pose proof (fits_lt (hcap b) ltac:(lia) Hfit) as Hmax.
    destruct (Z.leb_spec 0 (hlen b)); [| lia].
    destruct (Z.ltb_spec (hlen b) (Z.of_nat (length (data b)))); [| lia].
    cbn [andb bind handle data hlen hcap origin calls].
    rewrite wrap_small by lia.
    eexists. split; [reflexivity |].
    cbn [handle data hlen hcap origin calls fmap option_fmap option_map].
    rewrite length_insert.
    split_and!; try lia; try assumption; try reflexivity.
    + replace (Z.to_nat (hlen b + 1)) with (S (Z.to_nat (hlen b))) by lia.
      rewrite take_insert_lt by lia. apply insert_take_last. lia.
    + intros _. now split_and!.
Qed.

(** ** Insertion and removal *)

(** A move of [k] whole slots inside the block. *)
Lemma vec_memmove_whole w b dst src k :
  handle w = Some b ->
  0 <= src -> 0 <= dst -> 0 <= k ->
  src + k <= Z.of_nat (length (data b)) ->
  dst + k <= Z.of_nat (length (data b)) ->
  Vvsz * k < SIZE_MOD ->
  vec_memmove w dst src (wrap (Vvsz * k)) =
  Ok (World (Some (Block (origin b) (hlen b) (hcap b)
                         (move_slots (data b) (Z.to_nat dst) (Z.to_nat src) (Z.to_nat k))))
            (calls w)).
Proof.
  intros Hh Hsrc Hdst Hk Hs Hd Hmax. pose proof Vvsz_pos as Hsz.
  unfold vec_memmove. rewrite Hh.
  rewrite wrap_small by nia.
  rewrite (Z.mul_comm Vvsz k), Z.div_mul, Z.mod_mul by lia.
  change (0 =? 0) with true. cbv iota.
  destruct (Z.leb_spec 0 src); [| lia].
  destruct (Z.leb_spec 0 dst); [| lia].
  destruct (Z.leb_spec (src + k) (Z.of_nat (length (data b)))); [| lia].
  destruct (Z.leb_spec (dst + k) (Z.of_nat (length (data b)))); [| lia].
  reflexivity.
Qed.

Lemma vec_memmove_whole_inv w b dst src k w' :
  handle w = Some b -> 0 <= k -> Vvsz * k < SIZE_MOD ->
  vec_memmove w dst src (wrap (Vvsz * k)) = Ok w' ->
  0 <= src /\ 0 <= dst /\
  src + k <= Z.of_nat (length (data b)) /\
  dst + k <= Z.of_nat (length (data b)) /\
  w' = World (Some (Block (origin b) (hlen b) (hcap b)
                          (move_slots (data b) (Z.to_nat dst) (Z.to_nat src) (Z.to_nat k))))
             (calls w).
Proof.
  intros Hh Hk Hmax. pose proof Vvsz_pos as Hsz.
  unfold vec_memmove. rewrite Hh.
  rewrite wrap_small by nia.
  rewrite (Z.mul_comm Vvsz k), Z.div_mul, Z.mod_mul by lia.
  change (0 =? 0) with true. cbv iota.
  destruct (Z.leb_spec 0 src); [| discriminate].
  destruct (Z.leb_spec 0 dst); [| discriminate].
  destruct (Z.leb_spec (src + k) (Z.of_nat (length (data b)))); [| discriminate].
  destruct (Z.leb_spec (dst + k) (Z.of_nat (length (data b)))); [| discriminate].
  cbn [andb]. intros [= <-]. now split_and!.
Qed.

(** Whenever [vec_ins] returns on a sound buffer, it has inserted. *)
Lemma vec_ins_ok w i x w' :
  sound w -> 0 <= i <= vec_len w -> vec_ins w i x = Ok w' ->
  vec_len w' = vec_len w + 1 /\
  live w' = take (Z.to_nat i) (live w) ++ Some x :: drop (Z.to_nat i) (live w) /\
  exists c, calls w' = c :: calls w.
Proof.
  intros Hs Hi Hrun. destruct (sound_bounds w Hs) as (Hlen & Hmax & Hslots).
  pose proof Vvsz_pos as Hsz.
  assert (Hbytes : Vvsz * (vec_len w - i) < SIZE_MOD).
  { revert Hs Hlen. unfold sound, vec_len, vec_cap, fits, SIZEOF_SIZE_T.
    destruct (handle w) as [b |]; [| rewrite SIZE_MOD_eq; lia].
    intros (_ & _ & Hfit) Hlen. nia. }
  unfold vec_ins in Hrun. bind_inv Hrun.
  apply vec_grow_shape in Hrun0 as (p & c & k & _ & Hk & ->).
  rewrite (wrap_small i), (wrap_small (vec_len w - i)) in Hrun1 by lia.
  eapply vec_memmove_whole_inv in Hrun1; [| reflexivity | lia | exact Hbytes].
  destruct Hrun1 as (_ & _ & _ & Hdst & ->).
  cbn [data] in Hdst. rewrite length_resize in Hdst.
  revert Hrun2. unfold vec_set_len. cbn [handle data hlen hcap origin calls].
  rewrite wrap_small by nia. intros [= <-].
  revert Hrun. unfold vec_store. cbn [handle data hlen hcap origin calls].
  destruct (_ && _); [| discriminate]. intros [= <-].
  unfold live. cbn [vec_len slots handle data hlen hcap origin calls].
  split_and!; [reflexivity | | eauto].
  replace (Z.to_nat (vec_len w + 1)) with (S (Z.to_nat (vec_len w))) by lia.
  replace (Z.to_nat (i + 1)) with (S (Z.to_nat i)) by lia.
  rewrite (wrap_small i) by lia.
  replace (Z.to_nat (vec_len w - i)) with (Z.to_nat (vec_len w) - Z.to_nat i)%nat by lia.
  rewrite ins_slots by (rewrite ?length_resize; lia).
  now rewrite take_grown by lia.
Qed.

(** What [vec_ins] does to a sound buffer. *)
Lemma vec_ins_spec w i x :
  never_fails -> sound w -> 0 <= i <= vec_len w ->
  (vec_cap w <= vec_len w -> fits (next_cap (vec_cap w))) ->
  exists w',
    vec_ins w i x = Ok w' /\ sound w' /\
    vec_len w' = vec_len w + 1 /\
    live w' = take (Z.to_nat i) (live w) ++ Some x :: drop (Z.to_nat i) (live w) /\
    (vec_len w < vec_cap w -> vec_cap w' = vec_len w + 1) /\
    exists c, calls w' = c :: calls w.
Proof.
  intros Hnf Hs Hi Hroom. pose proof Vvsz_pos as Hsz.
  destruct (sound_bounds w Hs) as (Hlen & Hmax & Hslots).
  destruct (vec_grow_one_more w Hnf Hs Hroom)
    as (p & nc & Hnc & Hfitnc & Hexact & _ & Hgrow).
  pose proof (fits_lt nc ltac:(lia) Hfitnc) as Hncmax.
  assert (Hbytes : Vvsz * nc < SIZE_MOD) by (unfold fits, SIZEOF_SIZE_T in Hfitnc; nia).
  unfold vec_ins. rewrite Hgrow. cbn [bind].
  rewrite (wrap_small i), (wrap_small (vec_len w - i)), (wrap_small (vec_len w + 1)) by lia.
  erewrite vec_memmove_whole;
    [| reflexivity | cbn [data]; rewrite ?length_resize; try lia; try nia ..].
  cbn [bind]. unfold vec_set_len, vec_store.
  cbn [bind handle data hlen hcap origin calls].
  rewrite move_slots_length by (rewrite length_resize; lia).
  rewrite length_resize, Z2Nat.id by lia.
  destruct (Z.leb_spec 0 i); [| lia].
  destruct (Z.ltb_spec i nc); [| lia].
  cbn [andb]. eexists. split; [reflexivity |].
  unfold sound, live.
  cbn [vec_len vec_cap slots handle data hlen hcap origin calls].
  rewrite length_insert, move_slots_length, length_resize, Z2Nat.id
    by (rewrite ?length_resize; lia).
  split_and!; try lia; try assumption; [| eauto].
  replace (Z.to_nat (vec_len w + 1)) with (S (Z.to_nat (vec_len w))) by lia.
  replace (Z.to_nat (i + 1)) with (S (Z.to_nat i)) by lia.
  replace (Z.to_nat (vec_len w - i)) with (Z.to_nat (vec_len w) - Z.to_nat i)%nat by lia.
  rewrite ins_slots by (rewrite ?length_resize; lia).
  now rewrite take_grown by lia.
Qed.

(** What [vec_del] does to a sound buffer, below the length. *)
Lemma vec_del_spec w i :
  sound w -> 0 <= i < vec_len w ->
  exists w',
    vec_del w i = Ok w' /\ sound w' /\
    vec_len w' = vec_len w - 1 /\
    live w' = take (Z.to_nat i) (live w) ++ drop (S (Z.to_nat i)) (live w) /\
    vec_cap w' = vec_cap w /\ calls w' = calls w /\
    handle_addr w' = handle_addr w.
Proof.
  intros Hs Hi. pose proof Vvsz_pos as Hsz.
  destruct (sound_bounds w Hs) as (Hlen & Hmax & Hslots).
  revert Hs Hi Hlen Hmax Hslots.
  unfold vec_del, sound, live, handle_addr. unfold vec_len, vec_cap, slots.
  destruct w as [[b |] cs]; cbn [handle calls fmap option_fmap option_map]; [| lia].
  intros (_ & Hdata & Hfit) Hi Hlen Hmax _.
  rewrite (wrap_small i), (wrap_small (hlen b - i)), (wrap_small (hlen b - 1)),
    (wrap_small (hlen b - i - 1)) by lia.
  destruct (Z.ltb_spec i (hlen b)); [| lia].
  unfold vec_set_len. cbn [bind handle data hlen hcap origin calls].
  erewrite vec_memmove_whole;
    [| reflexivity | cbn [data]; try lia ..];
    [| unfold fits, SIZEOF_SIZE_T in Hfit; nia].
  eexists. split; [reflexivity |].
  cbn [handle data hlen hcap origin calls].
  rewrite move_slots_length by lia.
  split_and!; try lia; try assumption; try reflexivity.
  replace (Z.to_nat (hlen b - 1)) with (Z.to_nat (hlen b) - 1)%nat by lia.
  replace (Z.to_nat (i + 1)) with (S (Z.to_nat i)) by lia.
  replace (Z.to_nat (hlen b - i - 1))
    with (Z.to_nat (hlen b) - Z.to_nat i - 1)%nat by lia.
  apply del_slots; lia.
Qed.

(** Past the length, and on a null handle, [vec_del] does nothing. *)
Lemma vec_del_noop w i :
  vec_len w <= wrap i -> vec_del w i = Ok w.
Proof.
  unfold vec_del. destruct (handle w) as [b |] eqn:Hh; [| reflexivity].
  intros Hi. destruct (Z.ltb_spec (wrap i) (vec_len w)); [lia | reflexivity].
Qed.

(** ** Trim, clear and pop *)

(** Whenever [vec_trim] returns on a sound buffer, the block is exact. *)
Lemma vec_trim_ok w w' :
  sound w -> vec_trim w = Ok w' ->
  vec_cap w' = vec_len w' /\ vec_len w' = vec_len w /\ live w' = live w /\
  (vec_cap w = vec_len w -> w' = w).
Proof.
  intros Hs Hrun. destruct (sound_bounds w Hs) as (Hlen & Hmax & Hslots).
  pose proof Vvsz_pos as Hsz.
  unfold vec_trim in Hrun. destruct (handle w) as [b |] eqn:Hh.
  - destruct (Z.ltb_spec (vec_len w) (vec_cap w)) as [Hslack | Hexact].
    + assert (Hfit : fits (vec_len w)).
      { revert Hs Hlen. unfold sound, vec_len, vec_cap. rewrite Hh.
        intros (_ & _ & Hfit) Hlen. apply (fits_mono (hcap b)); [lia | exact Hfit]. }
      revert Hrun. unfold vec_realloc.
      rewrite (vec_memsize_fits (vec_len w)) by (lia || exact Hfit).
      destruct (VEC_REALLOC _) as [p |]; [| discriminate].
      destruct (_ <? _); [discriminate |].
      rewrite slots_of_size by lia. cbn. intros [= <-].
      unfold live. cbn [vec_len vec_cap slots handle data hlen hcap origin calls].
      split_and!; try reflexivity; [| lia].
      now rewrite take_resize_eq, resize_le by lia.
    + injection Hrun as <-. split_and!; try reflexivity. lia.
  - injection Hrun as <-. revert Hlen. unfold vec_len, vec_cap. rewrite Hh.
    intros _. now split_and!.
Qed.

Lemma vec_trim_spec w :
  sound w -> (vec_len w < vec_cap w -> never_fails) ->
  exists w',
    vec_trim w = Ok w' /\ sound w' /\
    vec_cap w' = vec_len w' /\ vec_len w' = vec_len w /\ live w' = live w /\
    (vec_cap w = vec_len w -> w' = w).
Proof.
  intros Hs Hnf. destruct (sound_bounds w Hs) as (Hlen & Hmax & Hslots).
  unfold vec_trim. destruct (handle w) as [b |] eqn:Hh.
  - destruct (Z.ltb_spec (vec_len w) (vec_cap w)) as [Hslack | Hexact].
    + assert (Hfit : fits (vec_len w)).
      { revert Hs Hlen. unfold sound, vec_len, vec_cap. rewrite Hh.
        intros (_ & _ & Hfit) Hlen. apply (fits_mono (hcap b)); [lia | exact Hfit]. }
      destruct (vec_realloc_fits w (vec_len w) (vec_len w) (Hnf Hslack)) as [p Hp];
        [lia | exact Hfit |].
      rewrite Hp. eexists. split; [reflexivity |].
      unfold sound, live.
      cbn [vec_len vec_cap slots handle data hlen hcap origin calls].
      rewrite length_resize, Z2Nat.id by lia.
      split_and!; try lia; try assumption.
      now rewrite take_resize_eq, resize_le by lia.
    + exists w. split_and!; try reflexivity; try assumption. lia.
  - exists w. revert Hlen. unfold vec_len, vec_cap. rewrite Hh.
    intros _. now split_and!.
Qed.

Lemma vec_clear_spec w :
  exists w',
    vec_clear w = Ok w' /\
    vec_len w' = 0 /\ vec_cap w' = vec_cap w /\ slots w' = slots w /\
    calls w' = calls w /\ handle_addr w' = handle_addr w /\
    (sound w -> sound w').
Proof.
  unfold vec_clear, vec_set_len, sound, vec_len, vec_cap, slots, handle_addr.
  destruct w as [[b |] cs]; cbn [handle calls]; eexists; (split; [reflexivity |]);
    cbn [handle data hlen hcap origin calls]; split_and!; try reflexivity; try lia.
  intros (Hlen & Hrest). split; [lia | exact Hrest].
Qed.

Lemma vec_pop_spec w :
  sound w -> 0 < vec_len w ->
  exists w',
    vec_pop w = Ok w' /\ sound w' /\
    vec_len w' = vec_len w - 1 /\ vec_cap w' = vec_cap w /\
    slots w' = slots w /\ calls w' = calls w.
Proof.
  intros Hs Hpos. destruct (sound_bounds w Hs) as (Hlen & Hmax & _).
  revert Hs Hpos Hlen Hmax.
  unfold vec_pop, vec_set_len, sound, vec_len, vec_cap, slots.
  destruct w as [[b |] cs]; cbn [handle calls]; [| lia].
  intros (_ & Hrest) Hpos Hlen Hmax. rewrite wrap_small by lia.
  eexists. split; [reflexivity |].
  cbn [handle data hlen hcap origin calls]. split_and!; try reflexivity; try lia.
  apply Hrest.
Qed.

Lemma vec_pop_n_spec (n : nat) : forall w,
  sound w -> Z.of_nat n <= vec_len w ->
  exists w',
    vec_pop_n n w = Ok w' /\ sound w' /\
    vec_len w' = vec_len w - Z.of_nat n /\ vec_cap w' = vec_cap w /\
    slots w' = slots w /\ calls w' = calls w.
Proof.
  induction n as [| n IH]; intros w Hs Hn.
  - exists w. cbn [vec_pop_n]. split_and!; try reflexivity; try assumption. lia.
  - destruct (vec_pop_spec w Hs ltac:(lia)) as (w1 & Hpop & Hs1 & Hl1 & Hc1 & Hd1 & Hcalls1).
    destruct (IH w1 Hs1 ltac:(lia)) as (w' & Hrun & Hs' & Hl' & Hc' & Hd' & Hcalls').
    exists w'. cbn [vec_pop_n]. rewrite Hpop. cbn [bind].
    split_and!; try assumption; try congruence. lia.
Qed.

(** ** Pushing into free slots *)

Lemma vec_push_all_free xs : forall w,
  sound w -> vec_len w + Z.of_nat (length xs) <= vec_cap w ->
  exists w',
    vec_push_all w xs = Ok w' /\ sound w' /\
    vec_len w' = vec_len w + Z.of_nat (length xs) /\
    live w' = live w ++ (Some <$> xs) /\
    calls w' = calls w /\ vec_cap w' = vec_cap w /\
    handle_addr w' = handle_addr w.
Proof.
  induction xs as [| x xs IH]; intros w Hs Hroom.
  - exists w. cbn [vec_push_all length fmap list_fmap].
    rewrite app_nil_r. split_and!; try reflexivity; try assumption. lia.
  - cbn [length] in Hroom.
    assert (Hfree : ~ full w) by (rewrite sound_full_iff by exact Hs; lia).
    destruct (vec_push_spec w x Hs ltac:(intros; contradiction))
      as (w1 & Hpush & Hs1 & Hl1 & Hlive1 & Hkeep & _).
    destruct (Hkeep Hfree) as (Hcalls1 & Hc1 & Ha1).
    destruct (IH w1 Hs1 ltac:(lia)) as (w' & Hrun & Hs' & Hl' & Hlive' & Hcalls' & Hc' & Ha').
    exists w'. cbn [vec_push_all]. rewrite Hpush. cbn [bind].
    split_and!; try assumption; try congruence.
    + cbn [length]. lia.
    + rewrite Hlive', Hlive1, <- app_assoc. reflexivity.
Qed.

(** ** What every returning operation keeps *)

Lemma vec_set_len_ok w n w' :
  vec_set_len w n = Ok w' ->
  vec_len w' = n /\ vec_cap w' = vec_cap w /\ handle w' <> None.
Proof.
  unfold vec_set_len, vec_len, vec_cap.
  destruct (handle w) as [b |]; [| discriminate]. intros [= <-]. now cbn.
Qed.

Lemma vec_store_ok w i x w' :
  vec_store w i x = Ok w' ->
  vec_len w' = vec_len w /\ vec_cap w' = vec_cap w /\ handle w' <> None.
Proof.
  unfold vec_store, vec_len, vec_cap.
  destruct (handle w) as [b |]; [| discriminate].
  destruct (_ && _); [| discriminate]. intros [= <-]. now cbn.
Qed.

Lemma vec_memmove_ok w dst src n w' :
  vec_memmove w dst src n = Ok w' ->
  vec_len w' = vec_len w /\ vec_cap w' = vec_cap w /\ handle w' <> None.
Proof.
  unfold vec_memmove, vec_len, vec_cap.
  destruct (handle w) as [b |]; [| discriminate].
  destruct (_ && _); [| discriminate]. intros [= <-]. now cbn.
Qed.

(** One operation, inside the contract, keeps the length within the
    capacity. *)
Lemma exec_keeps_length_le_capacity o w w' :
  0 <= vec_len w <= vec_cap w ->
  in_contract_init_covers o w ->
  exec o w = Ok w' ->
  0 <= vec_len w' <= vec_cap w'.
Proof.
  intros Hinv Hallowed Hrun.
  destruct o as [cap | x | | i x | i | |]; cbn [exec in_contract_init_covers in_contract] in *.
  - unfold vec_init in Hrun. apply vec_grow_ok in Hrun as (Hl & Hc & _). lia.
  - unfold vec_push in Hrun. bind_inv Hrun.
    apply vec_set_len_ok in Hrun as (Hl & Hc & _).
    apply vec_store_ok in Hrun1 as (_ & Hc1 & _).
    pose proof (wrap_range (vec_len w + 1)) as Hwr.
    pose proof (wrap_le (vec_len w + 1) ltac:(lia)) as Hwl.
    destruct ((vec_cap w =? 0) || (vec_cap w <=? vec_len w)) eqn:Htest.
    + apply vec_push_test in Htest.
      apply vec_grow_ok in Hrun0 as (_ & Hc0 & _).
      rewrite wrap_wrap in Hc0.
      assert (Hsame : vec_cap w = vec_len w) by (unfold full in Htest; lia).
      rewrite Hsame in Hc0. lia.
    + injection Hrun0 as <-.
      assert (Hfree : ~ full w) by (intros Hf; apply vec_push_test in Hf; congruence).
      unfold full in Hfree. lia.
  - unfold vec_pop in Hrun. apply vec_set_len_ok in Hrun as (Hl & Hc & _).
    pose proof (wrap_range (vec_len w - 1)).
    pose proof (wrap_le (vec_len w - 1) ltac:(lia)). lia.
  - unfold vec_ins in Hrun. bind_inv Hrun.
    apply vec_store_ok in Hrun as (Hl & Hc & _).
    apply vec_set_len_ok in Hrun2 as (Hl2 & Hc2 & _).
    apply vec_memmove_ok in Hrun1 as (_ & Hc1 & _).
    apply vec_grow_ok in Hrun0 as (_ & Hc0 & _).
    rewrite wrap_wrap in Hc0.
    pose proof (wrap_range (vec_len w + 1)). lia.
  - unfold vec_del in Hrun. destruct (handle w) as [b |] eqn:Hh.
    + destruct (Z.ltb_spec (wrap i) (vec_len w)) as [Hi |].
      * bind_inv Hrun.
        apply vec_memmove_ok in Hrun as (Hl & Hc & _).
        apply vec_set_len_ok in Hrun0 as (Hl0 & Hc0 & _).
        pose proof (wrap_range i).
        pose proof (wrap_range (vec_len w - 1)).
        pose proof (wrap_le (vec_len w - 1) ltac:(lia)). lia.
      * injection Hrun as <-. exact Hinv.
    + injection Hrun as <-. exact Hinv.
  - unfold vec_trim in Hrun. destruct (handle w) as [b |] eqn:Hh.
    + destruct (Z.ltb_spec (vec_len w) (vec_cap w)).
      * apply vec_realloc_ok in Hrun as (Hl & Hc & _). lia.
      * injection Hrun as <-. exact Hinv.
    + injection Hrun as <-. exact Hinv.
  - unfold vec_clear in Hrun. destruct (handle w) as [b |] eqn:Hh.
    + apply vec_set_len_ok in Hrun as (Hl & Hc & _). lia.
    + injection Hrun as <-. exact Hinv.
Qed.

Lemma reachable_length_le_capacity w :
  reachable in_contract_init_covers w -> 0 <= vec_len w <= vec_cap w.
Proof.
  induction 1 as [| o w w' _ IH Hallowed Hrun].
  - cbn. lia.
  - exact (exec_keeps_length_le_capacity o w w' IH Hallowed Hrun).
Qed.

(** ** Doubling growth *)

Lemma log2_up_succ_below n k :
  1 <= n -> k = Z.log2_up n -> n < 2 ^ k -> Z.log2_up (n + 1) = k.
Proof.
  intros Hn Hk Hlt.
  destruct (Z.eq_dec n 1) as [-> | Hne].
  - subst k. cbn in Hlt. lia.
  - pose proof (Z.log2_up_spec n ltac:(lia)) as [Hlo _]. rewrite <- Hk in Hlo.
    assert (0 < k).
    { subst k. destruct (Z.eq_dec (Z.log2_up n) 0) as [H0 | H0].
      - apply Z.log2_up_null in H0. lia.
      - pose proof (Z.log2_up_nonneg n). lia. }
    apply Z.log2_up_unique; lia.
Qed.

Lemma log2_up_succ_pow2 n k :
  1 <= n -> k = Z.log2_up n -> n = 2 ^ k -> Z.log2_up (n + 1) = k + 1.
Proof.
  intros Hn Hk Heq. pose proof (Z.log2_up_nonneg n). rewrite Heq.
  apply (Z.log2_up_succ_pow2 k). lia.
Qed.

Lemma smallest_pow2_ge_log2_up n :
  1 <= n -> smallest_pow2_ge (2 ^ Z.log2_up n) n.
Proof.
  intros Hn. pose proof (Z.log2_up_nonneg n) as Hk. split_and!.
  - eauto.
  - now apply Z.log2_up_le_pow2; [lia |].
  - intros k Hk0 Hle. apply Z.pow_le_mono_r; [lia |].
    apply Z.log2_up_le_pow2; [lia | exact Hle].
Qed.

Lemma fits_pow2_mono a c :
  1 <= a <= c -> fits (2 ^ Z.log2_up c) -> fits (2 ^ Z.log2_up a).
Proof.
  intros Hac. apply fits_mono. split.
  - apply Z.pow_nonneg. lia.
  - apply Z.pow_le_mono_r; [lia |]. apply Z.log2_up_le_mono. lia.
Qed.

Lemma vec_push_doubled w n x :
  VEC_GROW_RATE <> 1 -> never_fails -> 1 <= n ->
  doubled w n -> fits (2 ^ Z.log2_up (n + 1)) ->
  exists w', vec_push w x = Ok w' /\ doubled w' (n + 1) /\
             live w' = live w ++ [Some x].
Proof.
  intros Hrate Hnf Hn (Hs & Hlen & Hcap & Hcalls) Hfit.
  pose proof (Z.log2_up_nonneg n) as Hk.
  assert (Hpos : 0 < 2 ^ Z.log2_up n) by (apply Z.pow_pos_nonneg; lia).
  assert (Hnext : full w -> next_cap (vec_cap w) = 2 ^ Z.log2_up (n + 1) /\
                            Z.log2_up (n + 1) = Z.log2_up n + 1).
  { intros Hfull. apply sound_full_iff in Hfull; [| exact Hs].
    destruct (sound_bounds w Hs) as (Hb & _).
    assert (Hn2 : n = 2 ^ Z.log2_up n) by lia.
    rewrite (log2_up_succ_pow2 n (Z.log2_up n)) by (lia || reflexivity).
    split; [| reflexivity].
    unfold next_cap. destruct (Z.eqb_spec VEC_GROW_RATE 1); [contradiction |].
    destruct (Z.eqb_spec (vec_cap w) 0); [lia |].
    rewrite Hcap, Z.pow_add_r by lia. change (2 ^ 1) with 2. lia. }
  destruct (vec_push_spec w x Hs) as (w' & Hpush & Hs' & Hl' & Hlive' & Hkeep & Hgrown).
  { intros Hfull. split; [exact Hnf |]. destruct (Hnext Hfull) as [-> _]. exact Hfit. }
  exists w'. split; [exact Hpush |]. split; [| exact Hlive'].
  unfold doubled. split; [exact Hs' |]. split; [lia |].
  destruct (Z.le_gt_cases (vec_cap w) (vec_len w)) as [Hfull | Hfree].
  - apply sound_full_iff in Hfull; [| exact Hs].
    destruct (Hgrown Hfull) as ((c & Hc) & Hcap').
    destruct (Hnext Hfull) as (Hnc & Hlog).
    rewrite Hcap', Hnc, Hc. cbn [length]. split; [reflexivity | lia].
  - assert (Hnot : ~ full w) by (rewrite sound_full_iff by exact Hs; lia).
    destruct (Hkeep Hnot) as (Hcalls' & Hcap' & _).
    rewrite (log2_up_succ_below n (Z.log2_up n)) by (lia || reflexivity).
    rewrite Hcap', Hcalls'. split; assumption.
Qed.

Lemma vec_push_all_doubled xs : forall w n,
  VEC_GROW_RATE <> 1 -> never_fails -> 1 <= n ->
  doubled w n -> fits (2 ^ Z.log2_up (n + Z.of_nat (length xs))) ->
  exists w', vec_push_all w xs = Ok w' /\
             doubled w' (n + Z.of_nat (length xs)) /\
             live w' = live w ++ (Some <$> xs).
Proof.
  induction xs as [| x xs IH]; intros w n Hrate Hnf Hn Hd Hfit.
  - exists w. cbn [vec_push_all length fmap list_fmap].
    rewrite Z.add_0_r, app_nil_r. now split_and!.
  - cbn [length] in *.
    destruct (vec_push_doubled w n x Hrate Hnf Hn Hd) as (w1 & Hpush & Hd1 & Hlive1).
    { apply (fits_pow2_mono _ (n + Z.of_nat (S (length xs)))); [lia | exact Hfit]. }
    destruct (IH w1 (n + 1) Hrate Hnf ltac:(lia) Hd1) as (w' & Hrun & Hd' & Hlive').
    { replace (n + 1 + Z.of_nat (length xs)) with (n + Z.of_nat (S (length xs))) by lia.
      exact Hfit. }
    exists w'. cbn [vec_push_all]. rewrite Hpush. cbn [bind].
    split; [exact Hrun |]. split.
    + replace (n + Z.of_nat (S (length xs))) with (n + 1 + Z.of_nat (length xs)) by lia.
      exact Hd'.
    + rewrite Hlive', Hlive1, <- app_assoc. reflexivity.
Qed.

(** At capacity [2 ^ 63] the doubling loop wraps around to 0 and runs
    for ever. *)
Lemma vec_new_cap_top :
  VEC_GROW_RATE <> 1 -> vec_new_cap (2 ^ 63) (2 ^ 63 + 1) = Diverge.
Proof.
  intros Hrate. unfold vec_new_cap.
  destruct (Z.eqb_spec VEC_GROW_RATE 1); [contradiction |].
  vm_compute. reflexivity.
Qed.

(** Whenever a push returns on a buffer that doubling has built, doubling
    has built the result. *)
Lemma vec_push_doubled_ok w n x w' :
  VEC_GROW_RATE <> 1 -> 1 <= n -> doubled w n ->
  vec_push w x = Ok w' ->
  doubled w' (n + 1) /\ live w' = live w ++ [Some x].
Proof.
  intros Hrate Hn (Hs & Hlen & Hcap & Hcalls) Hrun.
  pose proof (Z.log2_up_nonneg n) as Hk.
  assert (Hpos : 0 < 2 ^ Z.log2_up n) by (apply Z.pow_pos_nonneg; lia).
  destruct (sound_bounds w Hs) as (Hb & Hmax & _).
  destruct (vec_push_ok w x w' Hs Hrun) as (Hl' & Hlive' & Hkeep).
  split; [| exact Hlive'].
  destruct (Z.le_gt_cases (vec_cap w) (vec_len w)) as [Hle | Hfree].
  - assert (Hfull : full w) by (rewrite sound_full_iff by exact Hs; exact Hle).
    assert (Hn2 : n = 2 ^ Z.log2_up n) by lia.
    assert (Hlog : Z.log2_up (n + 1) = Z.log2_up n + 1).
    { apply (log2_up_succ_pow2 n (Z.log2_up n)); lia || reflexivity. }
    destruct (Z.lt_ge_cases (2 * vec_cap w) SIZE_MOD) as [Hroom | Htop].
    + assert (Hnext : next_cap (vec_cap w) = 2 * vec_cap w).
      { unfold next_cap. destruct (Z.eqb_spec VEC_GROW_RATE 1); [contradiction |].
        destruct (Z.eqb_spec (vec_cap w) 0); [lia | reflexivity]. }
      destruct (vec_push_ok_grown w x w' Hs Hfull ltac:(lia) Hrun)
        as (Hs' & _ & Hcap' & c & Hc).
      unfold doubled. rewrite Hlog, Hcap', Hnext, Hcap, Hc.
      rewrite Z.pow_add_r by lia. change (2 ^ 1) with 2. cbn [length].
      split_and!; try assumption; lia.
    + exfalso.
      assert (Hk63 : Z.log2_up n = 63).
      { assert (Z.log2_up n < 64).
        { apply (Z.pow_lt_mono_r_iff 2); [lia | lia |].
          change (2 ^ 64) with SIZE_MOD. lia. }
        assert (63 < Z.log2_up n + 1).
        { apply (Z.pow_lt_mono_r_iff 2); [lia | lia |].
          rewrite Z.pow_add_r by lia. change (2 ^ 1) with 2.
          change (2 ^ 63) with (SIZE_MOD / 2). rewrite SIZE_MOD_eq in *.
          change (18446744073709551616 / 2) with 9223372036854775808. lia. }
        lia. }
      unfold vec_push in Hrun.
      rewrite (proj2 (vec_push_test w) Hfull) in Hrun.
      rewrite vec_push_grow_full in Hrun
        by (assumption || rewrite Hcap, Hk63, SIZE_MOD_eq; reflexivity).
      destruct (handle w) as [b |] eqn:Hh.
      * rewrite Hcap, Hk63, vec_new_cap_top in Hrun by exact Hrate. discriminate Hrun.
      * unfold vec_len in Hlen. rewrite Hh in Hlen. lia.
  - assert (Hnot : ~ full w) by (rewrite sound_full_iff by exact Hs; lia).
    destruct (vec_push_spec w x Hs ltac:(intros; contradiction))
      as (w'' & Hpush & Hs' & _ & _ & Hsame & _).
    rewrite Hrun in Hpush. injection Hpush as <-.
    destruct (Hsame Hnot) as (Hcalls' & Hcap' & _).
    unfold doubled.
    rewrite (log2_up_succ_below n (Z.log2_up n)) by (lia || reflexivity).
    rewrite Hcap', Hcalls'. split_and!; try assumption. lia.
Qed.

Lemma vec_push_all_doubled_ok xs : forall w n w',
  VEC_GROW_RATE <> 1 -> 1 <= n -> doubled w n ->
  vec_push_all w xs = Ok w' ->
  doubled w' (n + Z.of_nat (length xs)) /\ live w' = live w ++ (Some <$> xs).
Proof.
  induction xs as [| x xs IH]; intros w n w' Hrate Hn Hd Hrun.
  - cbn [vec_push_all] in Hrun. injection Hrun as <-.
    cbn [length fmap list_fmap]. rewrite Z.add_0_r, app_nil_r. now split.
  - cbn [vec_push_all] in Hrun. bind_inv Hrun.
    destruct (vec_push_doubled_ok w n x w0 Hrate Hn Hd Hrun0) as (Hd0 & Hlive0).
    destruct (IH w0 (n + 1) w' Hrate ltac:(lia) Hd0 Hrun) as (Hd' & Hlive').
    cbn [length]. split.
    + replace (n + Z.of_nat (S (length xs))) with (n + 1 + Z.of_nat (length xs)) by lia.
      exact Hd'.
    + rewrite Hlive', Hlive0, <- app_assoc. reflexivity.
Qed.

Lemma vec_push_null_ok x w' :
  vec_push null_world x = Ok w' -> doubled w' 1 /\ live w' = [Some x].
Proof.
  intros Hrun.
  assert (Hone : next_cap 0 = 1).
  { unfold next_cap. now destruct (VEC_GROW_RATE =? 1). }
  assert (Hs : sound null_world) by exact I.
  assert (Hfull : full null_world) by (left; reflexivity).
  destruct (vec_push_ok null_world x w' Hs Hrun) as (Hl' & Hlive' & _).
  destruct (vec_push_ok_grown null_world x w' Hs Hfull) as (Hs' & _ & Hcap' & c & Hc).
  { cbn [vec_cap null_world handle]. rewrite Hone, SIZE_MOD_eq. lia. }
  { exact Hrun. }
  split; [| exact Hlive'].
  unfold doubled. change (Z.log2_up 1) with 0.
  cbn [vec_cap vec_len null_world handle calls] in *.
  rewrite Hc, Hcap', Hone. cbn [length]. now split_and!.
Qed.

(** The first push, from [NULL]. *)
Lemma vec_push_null x :
  never_fails -> fits 1 ->
  exists w', vec_push null_world x = Ok w' /\ doubled w' 1 /\ live w' = [Some x].
Proof.
  intros Hnf Hfit.
  assert (Hone : next_cap 0 = 1).
  { unfold next_cap. now destruct (VEC_GROW_RATE =? 1). }
  destruct (vec_push_spec null_world x) as (w' & Hpush & Hs' & Hl' & Hlive' & _ & Hgrown).
  { exact I. }
  { intros _. split; [exact Hnf |]. cbn [vec_cap null_world handle]. now rewrite Hone. }
  destruct Hgrown as ((c & Hc) & Hcap'); [left; reflexivity |].
  exists w'. split; [exact Hpush |]. split; [| exact Hlive'].
  unfold doubled. change (Z.log2_up 1) with 0.
  cbn [vec_cap vec_len null_world handle calls] in *.
  rewrite Hc, Hcap', Hone. cbn [length]. now split_and!.
Qed.

(** ** Reading elements *)

Lemma live_length w : sound w -> length (live w) = Z.to_nat (vec_len w).
Proof.
  intros Hs. destruct (sound_bounds w Hs) as (Hlen & _ & Hslots).
  unfold live. rewrite length_take. lia.
Qed.

Lemma vec_get_live w j :
  0 <= j < vec_len w -> vec_get w j = mjoin (live w !! Z.to_nat j).
Proof.
  intros Hj. unfold vec_get, live.
  destruct (Z.leb_spec 0 j); [| lia].
  now rewrite lookup_take_lt by lia.
Qed.

Lemma lookup_inserted_lt (l : list (option elt)) (i j : nat) y :
  (j < i <= length l)%nat -> (take i l ++ y :: drop i l) !! j = l !! j.
Proof.
  intros Hj. rewrite lookup_app_l by (rewrite length_take; lia).
  apply lookup_take_lt. lia.
Qed.

Lemma lookup_inserted_eq (l : list (option elt)) (i : nat) y :
  (i <= length l)%nat -> (take i l ++ y :: drop i l) !! i = Some y.
Proof.
  intros Hi. apply list_lookup_middle. rewrite length_take. lia.
Qed.

Lemma lookup_inserted_gt (l : list (option elt)) (i j : nat) y :
  (i <= j)%nat -> (i <= length l)%nat ->
  (take i l ++ y :: drop i l) !! S j = l !! j.
Proof.
  intros Hj Hi. rewrite lookup_app_r by (rewrite length_take; lia).
  rewrite length_take. replace (S j - i `min` length l)%nat with (S (j - i)) by lia.
  change ((y :: drop i l) !! S (j - i)) with (drop i l !! (j - i)%nat).
  rewrite lookup_drop. f_equal. lia.
Qed.

Lemma lookup_removed_lt (l : list (option elt)) (i j : nat) :
  (j < i <= length l)%nat -> (take i l ++ drop (S i) l) !! j = l !! j.
Proof.
  intros Hj. rewrite lookup_app_l by (rewrite length_take; lia).
  apply lookup_take_lt. lia.
Qed.

Lemma lookup_removed_ge (l : list (option elt)) (i j : nat) :
  (i <= j)%nat -> (i <= length l)%nat ->
  (take i l ++ drop (S i) l) !! j = l !! S j.
Proof.
  intros Hj Hi. rewrite lookup_app_r by (rewrite length_take; lia).
  rewrite length_take, lookup_drop. f_equal. lia.
Qed.

(** * The claims *)

(** C2, as amended. Every buffer that the public operations reach from the
    null handle (push, pop of a non-empty buffer, insertion at an index
    from 0 to the length, removal, trim, clear, and init with a request
    that covers the current length) has its length within its capacity,
    and a null handle has capacity 0. The converse is not claimed: a
    handle that is not null can have capacity 0. *)
Theorem reachable_length_within_capacity w :
  reachable in_contract_init_covers w ->
  vec_len w <= vec_cap w /\ (handle w = None -> vec_cap w = 0).
Proof.
  intros Hreach. split.
  - apply reachable_length_le_capacity in Hreach. lia.
  - intros Hnull. unfold vec_cap. now rewrite Hnull.
Qed.

(** C3, as amended. For every request [r >= 1], growing the null handle
    to [r] (which is what [vec_init] does) passes a null pointer to the
    reallocation primitive and, whenever it returns, has set the capacity
    to exactly [r], whatever [VEC_GROW_RATE] is: the growth policy is
    consulted for a handle that is not null only. It returns as soon as
    the allocator returns a block and a block of [r] slots fits in
    [size_t]. *)
Theorem vec_grow_null_exact w r :
  handle w = None -> 1 <= r < SIZE_MOD ->
  (forall w',
     vec_grow w r = Ok w' ->
     vec_cap w' = r /\ vec_len w' = 0 /\
     calls w' = (None, vec_memsize r) :: calls w) /\
  (never_fails -> fits r ->
   exists w', vec_grow w r = Ok w' /\ vec_init w r = Ok w').
Proof.
  intros Hnull Hr. split.
  - intros w' Hrun. rewrite vec_grow_null, wrap_small in Hrun by (assumption || lia).
    apply vec_realloc_ok in Hrun as (Hl & Hc & _ & Hcalls).
    rewrite Hnull in Hcalls. now split_and!.
  - intros Hnf Hfit.
    destruct (vec_realloc_fits w r 0 Hnf ltac:(lia) Hfit) as [p Hp].
    unfold vec_init. rewrite vec_grow_null, wrap_small, Hp by (assumption || lia).
    eexists. split; reflexivity.
Qed.

(** C4. Whenever [vec_push] returns on a sound buffer, the null handle
    included, it has appended: the length has grown by one, the new
    element is at the old length, the elements below it are unchanged, and
    the allocator was called only if the old capacity was 0 or did not
    exceed the old length. And it does return: when there is a free slot,
    always; when the block must grow, as soon as the allocator returns a
    block and the next capacity fits in [size_t]. *)
Theorem vec_push_appends w x :
  sound w ->
  (forall w',
     vec_push w x = Ok w' ->
     vec_len w' = vec_len w + 1 /\
     vec_get w' (vec_len w) = Some x /\
     (forall j, 0 <= j < vec_len w -> vec_get w' j = vec_get w j) /\
     live w' = live w ++ [Some x] /\
     (calls w' <> calls w -> vec_cap w = 0 \/ vec_cap w <= vec_len w)) /\
  ((vec_cap w = 0 \/ vec_cap w <= vec_len w ->
    never_fails /\ fits (next_cap (vec_cap w))) ->
   exists w', vec_push w x = Ok w').
Proof.
  intros Hs. split.
  - intros w' Hpush.
    destruct (vec_push_ok w x w' Hs Hpush) as (Hl' & Hlive' & Hkeep).
    destruct (sound_bounds w Hs) as (Hlen & _).
    pose proof (live_length w Hs) as Hll.
    split_and!; try assumption.
    + rewrite vec_get_live, Hlive' by lia.
      rewrite (list_lookup_middle (live w) [] (Some x)); [reflexivity | lia].
    + intros j Hj. rewrite !vec_get_live, Hlive' by lia.
      now rewrite lookup_app_l by lia.
    + intros Hcalls.
      destruct (Z.eq_dec (vec_cap w) 0) as [H0 | H0]; [now left |].
      destruct (Z.le_gt_cases (vec_cap w) (vec_len w)) as [Hle | Hgt]; [now right |].
      destruct Hcalls. apply Hkeep. unfold full. lia.
  - intros Hroom.
    destruct (vec_push_spec w x Hs Hroom) as (w' & Hpush & _). eauto.
Qed.

(** C5. Whenever [vec_ins] at an index from 0 to the length returns on
    a sound buffer (the null handle, of length 0, included), the value is
    at that index, the length has grown by one, the elements below the
    index are unchanged and each element from the index on has moved one
    slot forward. And it does return as soon as the allocator returns a
    block and, when the block is full, the next capacity fits in
    [size_t]. *)
Theorem vec_ins_inserts w i x :
  sound w -> 0 <= i <= vec_len w ->
  (forall w',
     vec_ins w i x = Ok w' ->
     vec_get w' i = Some x /\
     vec_len w' = vec_len w + 1 /\
     (forall j, 0 <= j < i -> vec_get w' j = vec_get w j) /\
     (forall j, i <= j < vec_len w -> vec_get w' (j + 1) = vec_get w j) /\
     live w' = take (Z.to_nat i) (live w) ++ Some x :: drop (Z.to_nat i) (live w)) /\
  (never_fails ->
   (vec_cap w <= vec_len w -> fits (next_cap (vec_cap w))) ->
   exists w', vec_ins w i x = Ok w').
Proof.
  intros Hs Hi. split.
  - intros w' Hins.
    destruct (vec_ins_ok w i x w' Hs Hi Hins) as (Hl' & Hlive' & _).
    pose proof (live_length w Hs) as Hll.
    split_and!; try assumption.
    + rewrite vec_get_live, Hlive' by lia.
      now rewrite lookup_inserted_eq by lia.
    + intros j Hj. rewrite !vec_get_live, Hlive' by lia.
      now rewrite lookup_inserted_lt by lia.
    + intros j Hj. rewrite !vec_get_live, Hlive' by lia.
      replace (Z.to_nat (j + 1)) with (S (Z.to_nat j)) by lia.
      now rewrite lookup_inserted_gt by lia.
  - intros Hnf Hroom.
    destruct (vec_ins_spec w i x Hnf Hs Hi Hroom) as (w' & Hins & _). eauto.
Qed.

(** C6. [vec_del] at an index below the length of a sound buffer takes
    one element out: the length drops by one, the elements below the index
    stay, the elements above it move one slot down, and the capacity and
    the block stay; at an index that is not below the length, and on the
    null handle, it leaves everything as it was. *)
Theorem vec_del_removes w i :
  0 <= i < SIZE_MOD ->
  (sound w -> i < vec_len w ->
   exists w',
     vec_del w i = Ok w' /\
     vec_len w' = vec_len w - 1 /\
     (forall j, 0 <= j < i -> vec_get w' j = vec_get w j) /\
     (forall j, i <= j < vec_len w - 1 -> vec_get w' j = vec_get w (j + 1)) /\
     live w' = take (Z.to_nat i) (live w) ++ drop (S (Z.to_nat i)) (live w) /\
     vec_cap w' = vec_cap w /\ calls w' = calls w) /\
  (vec_len w <= i -> vec_del w i = Ok w).
Proof.
  intros Hi. split.
  - intros Hs Hlt.
    destruct (vec_del_spec w i Hs ltac:(lia))
      as (w' & Hdel & Hs' & Hl' & Hlive' & Hc' & Hcalls' & _).
    pose proof (live_length w Hs) as Hll.
    exists w'. split_and!; try assumption.
    + intros j Hj. rewrite !vec_get_live, Hlive' by lia.
      now rewrite lookup_removed_lt by lia.
    + intros j Hj. rewrite !vec_get_live, Hlive' by lia.
      replace (Z.to_nat (j + 1)) with (S (Z.to_nat j)) by lia.
      now rewrite lookup_removed_ge by lia.
  - intros Hge. apply vec_del_noop. now rewrite wrap_small.
Qed.

(** C7. Whenever [vec_trim] returns on a sound buffer, the null handle
    included, the capacity equals the length, the length and the live
    elements are what they were, and nothing at all has changed if the
    capacity already equalled the length. It does return when there is no
    slack, and when there is as soon as the allocator returns a block. So
    after [n] pops down to a length [L], a trim leaves capacity [L]. *)
Theorem vec_trim_exact w :
  sound w ->
  (forall w',
     vec_trim w = Ok w' ->
     vec_cap w' = vec_len w' /\ vec_len w' = vec_len w /\ live w' = live w /\
     (vec_cap w = vec_len w -> w' = w)) /\
  ((vec_len w < vec_cap w -> never_fails) -> exists w', vec_trim w = Ok w') /\
  (never_fails ->
   forall n : nat, Z.of_nat n <= vec_len w ->
   exists w1 w2,
     vec_pop_n n w = Ok w1 /\ vec_trim w1 = Ok w2 /\
     vec_len w2 = vec_len w - Z.of_nat n /\
     vec_cap w2 = vec_len w - Z.of_nat n).
Proof.
  intros Hs. split_and!.
  - intros w'. apply vec_trim_ok. exact Hs.
  - intros Hnf. destruct (vec_trim_spec w Hs Hnf) as (w' & Htrim & _). eauto.
  - intros Hnf n Hn.
    destruct (vec_pop_n_spec n w Hs Hn) as (w1 & Hpop & Hs1 & Hl1 & _).
    destruct (vec_trim_spec w1 Hs1 (fun _ => Hnf)) as (w2 & Htrim & _ & Hc2 & Hl2 & _).
    exists w1, w2. split_and!; try assumption; lia.
Qed.

(** C8. [vec_clear] of a sound buffer sets the length to 0 and keeps the
    capacity and the slots, and any pushes after it, up to the capacity in
    number, call the allocator not once: the calls, the capacity and the
    handle are what they were before the clear. This holds for every
    allocator, and for every list of pushes that is short enough, so for
    each prefix of one too. *)
Theorem vec_clear_then_push_reuses w xs :
  sound w ->
  Z.of_nat (length xs) <= vec_cap w ->
  exists w0 w',
    vec_clear w = Ok w0 /\
    vec_len w0 = 0 /\ vec_cap w0 = vec_cap w /\ slots w0 = slots w /\
    vec_push_all w0 xs = Ok w' /\
    calls w' = calls w /\ vec_cap w' = vec_cap w /\
    handle_addr w' = handle_addr w /\
    vec_len w' = Z.of_nat (length xs) /\ live w' = Some <$> xs.
Proof.
  intros Hs Hxs.
  destruct (vec_clear_spec w) as (w0 & Hclear & Hl0 & Hc0 & Hd0 & Hcalls0 & Ha0 & Hs0).
  destruct (vec_push_all_free xs w0 (Hs0 Hs) ltac:(lia))
    as (w' & Hrun & _ & Hl' & Hlive' & Hcalls' & Hc' & Ha').
  exists w0, w'. split_and!; try assumption; try congruence; try lia.
  rewrite Hlive'. unfold live. now rewrite Hl0.
Qed.

(** C9. Under the doubling policy, whenever pushing the [N >= 1] elements
    of a list onto the null handle returns, the capacity is the smallest
    power of two that is at least [N], and the allocator has been called
    [log2_up N + 1] times. The pushes do return as soon as the allocator
    returns a block each time and the final capacity fits in [size_t]. *)
Theorem vec_push_all_doubling xs :
  VEC_GROW_RATE <> 1 -> xs <> [] ->
  (forall w',
     vec_push_all null_world xs = Ok w' ->
     vec_len w' = Z.of_nat (length xs) /\
     smallest_pow2_ge (vec_cap w') (Z.of_nat (length xs)) /\
     vec_cap w' = 2 ^ Z.log2_up (Z.of_nat (length xs)) /\
     Z.of_nat (length (calls w')) = Z.log2_up (Z.of_nat (length xs)) + 1 /\
     live w' = Some <$> xs) /\
  (never_fails -> fits (2 ^ Z.log2_up (Z.of_nat (length xs))) ->
   exists w', vec_push_all null_world xs = Ok w').
Proof.
  intros Hrate Hxs. destruct xs as [| x xs]; [contradiction |].
  cbn [length] in *. split.
  - intros w' Hrun. cbn [vec_push_all] in Hrun. bind_inv Hrun.
    destruct (vec_push_null_ok x w Hrun0) as (Hd1 & Hlive1).
    destruct (vec_push_all_doubled_ok xs w 1 w' Hrate ltac:(lia) Hd1 Hrun)
      as ((Hs' & Hl' & Hc' & Hcalls') & Hlive').
    replace (1 + Z.of_nat (length xs)) with (Z.of_nat (S (length xs))) in * by lia.
    split_and!; try assumption.
    + rewrite Hc'. apply smallest_pow2_ge_log2_up. lia.
    + rewrite Hlive', Hlive1. reflexivity.
  - intros Hnf Hfit.
    destruct (vec_push_null x Hnf) as (w1 & Hpush & Hd1 & _).
    { apply (fits_pow2_mono 1 (Z.of_nat (S (length xs)))) in Hfit; [exact Hfit | lia]. }
    destruct (vec_push_all_doubled xs w1 1 Hrate Hnf ltac:(lia) Hd1) as (w' & Hrun & _).
    { replace (1 + Z.of_nat (length xs)) with (Z.of_nat (S (length xs))) by lia.
      exact Hfit. }
    exists w'. cbn [vec_push_all]. rewrite Hpush. exact Hrun.
Qed.

(** C10. On a sound buffer of length [n], whenever [vec_ins] at index
    [n] and [vec_push] both return they leave the same live elements and
    the same length [n + 1]. Both return as soon as the allocator returns
    a block and, when the block is full, the next capacity fits in
    [size_t]. Nothing is said of the capacities. *)
Theorem vec_ins_at_end_is_push w x :
  sound w ->
  (forall wi wp,
     vec_ins w (vec_len w) x = Ok wi -> vec_push w x = Ok wp ->
     live wi = live wp /\
     vec_len wi = vec_len w + 1 /\ vec_len wp = vec_len w + 1) /\
  (never_fails ->
   (vec_cap w <= vec_len w -> fits (next_cap (vec_cap w))) ->
   exists wi wp,
     vec_ins w (vec_len w) x = Ok wi /\ vec_push w x = Ok wp).
Proof.
  intros Hs.
  destruct (sound_bounds w Hs) as (Hlen & _).
  pose proof (live_length w Hs) as Hll.
  split.
  - intros wi wp Hins Hpush.
    destruct (vec_ins_ok w (vec_len w) x wi Hs ltac:(lia) Hins) as (Hli & Hlivei & _).
    destruct (vec_push_ok w x wp Hs Hpush) as (Hlp & Hlivep & _).
    split_and!; try assumption.
    rewrite Hlivei, Hlivep, <- Hll, firstn_all, drop_all. reflexivity.
  - intros Hnf Hroom.
    destruct (vec_ins_spec w (vec_len w) x Hnf Hs ltac:(lia) Hroom) as (wi & Hins & _).
    destruct (vec_push_spec w x Hs) as (wp & Hpush & _).
    { intros Hfull. split; [exact Hnf |]. apply Hroom.
      now apply sound_full_iff in Hfull. }
    exists wi, wp. split; assumption.
Qed.

(** * Beyond the claims *)

(** ** The growth policy, in general *)

Lemma new_cap_loop_range (fuel : nat) : forall out req c,
  0 <= out < SIZE_MOD -> new_cap_loop fuel out req = Ok c -> 0 <= c < SIZE_MOD.
Proof.
  induction fuel as [| fuel IH]; intros out req c Hout; cbn [new_cap_loop].
  - discriminate.
  - destruct (Z.ltb_spec out req).
    + apply IH, wrap_range.
    + intros [= <-]. lia.
Qed.

Lemma new_cap_loop_below_double (fuel : nat) : forall out req c,
  0 <= out < 2 * req -> new_cap_loop fuel out req = Ok c -> c < 2 * req.
Proof.
  induction fuel as [| fuel IH]; intros out req c Hout; cbn [new_cap_loop].
  - discriminate.
  - destruct (Z.ltb_spec out req).
    + apply IH. pose proof (wrap_range (out * 2)).
      pose proof (wrap_le (out * 2) ltac:(lia)). lia.
    + intros [= <-]. lia.
Qed.

Lemma vec_new_cap_range cur req c :
  0 <= cur < SIZE_MOD -> 0 <= req < SIZE_MOD ->
  vec_new_cap cur req = Ok c -> 0 <= c < SIZE_MOD.
Proof.
  intros Hcur Hreq. unfold vec_new_cap. destruct (VEC_GROW_RATE =? 1).
  - intros [= <-]. exact Hreq.
  - apply new_cap_loop_range. destruct (Z.eqb_spec cur 0); [rewrite SIZE_MOD_eq |]; lia.
Qed.

Lemma vec_new_cap_below_double cur req c :
  0 <= cur < req -> vec_new_cap cur req = Ok c -> req <= c < 2 * req.
Proof.
  intros Hcur Hrun. split; [exact (vec_new_cap_covers cur req c Hrun) |].
  revert Hrun. unfold vec_new_cap. destruct (VEC_GROW_RATE =? 1).
  - intros [= <-]. lia.
  - apply new_cap_loop_below_double. destruct (Z.eqb_spec cur 0); lia.
Qed.

(** A loop whose counter stays below the request for [n] rounds has not
    stopped after [n] rounds. *)
Lemma new_cap_loop_below (n : nat) : forall out req,
  0 <= out < SIZE_MOD ->
  (forall i, 0 <= i < Z.of_nat n -> wrap (out * 2 ^ i) < req) ->
  new_cap_loop n out req = Diverge.
Proof.
  induction n as [| n IH]; intros out req Hout Hbelow; cbn [new_cap_loop].
  - reflexivity.
  - pose proof (Hbelow 0 ltac:(lia)) as H0.
    change (2 ^ 0) with 1 in H0. rewrite Z.mul_1_r, wrap_small in H0 by exact Hout.
    destruct (Z.ltb_spec out req); [| lia].
    apply IH; [apply wrap_range |].
    intros i Hi. specialize (Hbelow (i + 1) ltac:(lia)).
    rewrite Z.pow_add_r in Hbelow by lia. change (2 ^ 1) with 2 in Hbelow.
    replace (wrap (wrap (out * 2) * 2 ^ i)) with (wrap (out * (2 ^ i * 2))); [exact Hbelow |].
    unfold wrap. rewrite Z.mul_mod_idemp_l by (rewrite SIZE_MOD_eq; lia).
    f_equal. lia.
Qed.

(** ** Reallocation, read backwards *)

Lemma vec_realloc_fits_inv w c n w' :
  0 <= c -> fits c -> vec_realloc w c n = Ok w' ->
  exists p,
    w' = World (Some (Block p n c (resize (Z.to_nat c) None (slots w))))
               ((origin <$> handle w, c * Vvsz + 16) :: calls w).
Proof.
  intros Hc Hfit Hrun. apply vec_realloc_inv in Hrun as (p & _ & ->).
  exists p. rewrite vec_memsize_fits by assumption.
  replace (c * Vvsz + 16 - 16) with (c * Vvsz) by lia.
  rewrite Z.div_mul by (pose proof Vvsz_pos; lia). reflexivity.
Qed.

Lemma vec_store_inv w i x w' :
  vec_store w i x = Ok w' ->
  0 <= i < Z.of_nat (length (slots w)) /\
  exists b, handle w = Some b /\
    w' = World (Some (Block (origin b) (hlen b) (hcap b)
                            (<[Z.to_nat i := Some x]> (data b))))
               (calls w).
Proof.
  unfold vec_store, slots. destruct (handle w) as [b |]; [| discriminate].
  destruct (Z.leb_spec 0 i); [| discriminate].
  destruct (Z.ltb_spec i (Z.of_nat (length (data b)))); [| discriminate].
  cbn [andb]. intros [= <-]. split; [lia | eauto].
Qed.

(** Growing for one more element, read backwards: if the slot after the
    live ones exists in the block that [vec_grow] returned, that block is
    as large as its header says. *)
Lemma vec_grow_one_more_inv w w1 :
  sound w ->
  vec_grow w (wrap (vec_len w + 1)) = Ok w1 ->
  vec_len w < Z.of_nat (length (slots w1)) ->
  exists p nc,
    vec_len w + 1 <= nc /\ fits nc /\
    w1 = World (Some (Block p (vec_len w) nc (resize (Z.to_nat nc) None (slots w))))
               ((origin <$> handle w, nc * Vvsz + 16) :: calls w).
Proof.
  intros Hs Hrun Hslot.
  destruct (sound_bounds w Hs) as (Hlen & Hmax & Hslots).
  pose proof Vvsz_pos as Hsz.
  assert (Hfitc : fits (vec_cap w) /\ vec_cap w * Vvsz < SIZE_MOD).
  { revert Hs. unfold sound, vec_cap, fits, SIZEOF_SIZE_T.
    destruct (handle w) as [b |]; [| rewrite SIZE_MOD_eq; lia].
    intros (_ & _ & Hfit). lia. }
  destruct Hfitc as (Hfitc & Hbytes).
  assert (Hlen1 : vec_len w + 1 < SIZE_MOD).
  { unfold fits, SIZEOF_SIZE_T in Hfitc. nia. }
  destruct (handle w) as [b |] eqn:Hh.
  - assert (Hl : hlen b = vec_len w) by (unfold vec_len; now rewrite Hh).
    assert (Hc : hcap b = vec_cap w) by (unfold vec_cap; now rewrite Hh).
    destruct (Z.lt_ge_cases (vec_len w) (vec_cap w)) as [Hfree | Hfull].
    + rewrite (vec_grow_enough w b), wrap_wrap, wrap_small, Hl in Hrun
        by (rewrite ?wrap_wrap, ?wrap_small; lia || assumption).
      apply vec_realloc_fits_inv in Hrun as (p & ->);
        [| lia | apply (fits_mono (vec_cap w)); [lia | exact Hfitc]].
      exists p, (vec_len w + 1). split_and!; [lia | | now rewrite Hh].
      apply (fits_mono (vec_cap w)); [lia | exact Hfitc].
    + assert (Hsame : vec_cap w = vec_len w) by lia.
      rewrite (vec_grow_short w b), wrap_wrap, wrap_small, Hl, Hc, Hsame in Hrun
        by (rewrite ?wrap_wrap, ?wrap_small; lia || assumption).
      apply outcome_bind_ok in Hrun as (nc & Hnc & Hrun).
      pose proof (vec_new_cap_covers _ _ _ Hnc) as Hcover.
      pose proof (vec_new_cap_range (vec_len w) (vec_len w + 1) nc
                    ltac:(lia) ltac:(lia) Hnc) as Hncr.
      apply vec_realloc_inv in Hrun as (p & Hhdr & ->).
      cbn [slots handle data] in Hslot. rewrite length_resize in Hslot.
      rewrite Z2Nat.id in Hslot by (apply Z.div_pos; lia).
      assert (Hfit : fits nc).
      { destruct (Z.lt_ge_cases (next_cap (vec_len w)) SIZE_MOD) as [Hnext | Htop].
        - rewrite vec_new_cap_one_more in Hnc by lia. injection Hnc as <-.
          pose proof (next_cap_range (vec_len w) ltac:(lia)).
          apply (store_after_realloc_fits _ (vec_len w)); try assumption; lia.
        - assert (Hone : Vvsz = 1).
          { pose proof (next_cap_range (vec_len w) ltac:(lia)) as Hr.
            rewrite SIZE_MOD_eq in Htop, Hbytes.
            assert (18446744073709551616 <= 2 * vec_len w) by lia.
            destruct (Z.eq_dec Vvsz 1) as [| Hne]; [assumption | nia]. }
          revert Hhdr. unfold fits, vec_memsize, SIZEOF_SIZE_T. rewrite Hone, Z.mul_1_r.
          rewrite (wrap_small nc), (wrap_small (8 * 2)) by (lia || (rewrite SIZE_MOD_eq; lia)).
          destruct (Z.lt_ge_cases (nc + 8 * 2) SIZE_MOD) as [| Hover]; [lia |].
          assert (Hw : wrap (nc + 8 * 2) = nc + 8 * 2 - SIZE_MOD).
          { unfold wrap. symmetry. apply (Z.mod_unique _ _ 1); rewrite ?SIZE_MOD_eq in *; lia. }
          rewrite Hw. lia. }
      exists p, nc. rewrite vec_memsize_fits by (lia || assumption).
      replace (nc * Vvsz + 16 - 16) with (nc * Vvsz) by lia.
      rewrite Z.div_mul by lia. split_and!; [lia | exact Hfit | now rewrite Hh].
  - assert (Hl : vec_len w = 0) by (unfold vec_len; now rewrite Hh).
    rewrite Hl in *.
    rewrite vec_grow_null, wrap_wrap, wrap_small in Hrun
      by (assumption || rewrite SIZE_MOD_eq; lia).
    change (0 + 1) with 1 in *.
    apply vec_realloc_inv in Hrun as (p & Hhdr & ->).
    cbn [slots handle data] in Hslot. rewrite length_resize in Hslot.
    rewrite Z2Nat.id in Hslot by (apply Z.div_pos; lia).
    assert (Hfit : fits 1).
    { apply (store_after_realloc_fits 1 0); try assumption; lia. }
    exists p, 1. rewrite vec_memsize_fits by (lia || assumption).
    replace (1 * Vvsz + 16 - 16) with (1 * Vvsz) by lia.
    rewrite Z.div_mul by lia. split_and!; [lia | exact Hfit | now rewrite Hh].
Qed.

(** ** Every returning operation keeps the buffer tidy *)

Lemma vec_push_keeps_sound w x w' :
  sound w -> vec_push w x = Ok w' -> sound w'.
Proof.
  intros Hs Hrun. destruct (sound_bounds w Hs) as (Hlen & Hmax & Hslots).
  destruct (Z.lt_ge_cases (vec_len w) (vec_cap w)) as [Hfree | Hfull].
  - assert (Hnot : ~ full w) by (rewrite sound_full_iff by exact Hs; lia).
    destruct (vec_push_spec w x Hs ltac:(intros; contradiction)) as (w'' & Hp & Hs'' & _).
    rewrite Hrun in Hp. injection Hp as <-. exact Hs''.
  - assert (Hf : full w) by (rewrite sound_full_iff by exact Hs; lia).
    assert (Hsame : vec_cap w = vec_len w) by lia.
    unfold vec_push in Hrun. rewrite (proj2 (vec_push_test w) Hf), Hsame in Hrun.
    bind_inv Hrun.
    apply vec_store_inv in Hrun1 as (Hi & b & Hb & ->).
    destruct (vec_grow_one_more_inv w w0 Hs Hrun0 ltac:(lia)) as (p & nc & Hnc & Hfit & ->).
    cbn [handle] in Hb. injection Hb as <-.
    pose proof (fits_lt nc ltac:(lia) Hfit) as Hncmax.
    revert Hrun. unfold vec_set_len. cbn [handle data hlen hcap origin calls].
    rewrite wrap_small by lia. intros [= <-].
    unfold sound. cbn [handle data hlen hcap].
    rewrite length_insert, length_resize, Z2Nat.id by lia.
    split_and!; try lia. exact Hfit.
Qed.

Lemma vec_ins_keeps_sound w i x w' :
  sound w -> 0 <= i <= vec_len w -> vec_ins w i x = Ok w' -> sound w'.
Proof.
  intros Hs Hi Hrun. destruct (sound_bounds w Hs) as (Hlen & Hmax & Hslots).
  pose proof Vvsz_pos as Hsz.
  assert (Hbytes : Vvsz * (vec_len w - i) < SIZE_MOD).
  { revert Hs Hlen. unfold sound, vec_len, vec_cap, fits, SIZEOF_SIZE_T.
    destruct (handle w) as [b |]; [| rewrite SIZE_MOD_eq; lia].
    intros (_ & _ & Hfit) Hlen. nia. }
  unfold vec_ins in Hrun. bind_inv Hrun.
  pose proof (vec_grow_ok _ _ _ Hrun0) as (_ & _ & Hnn & _).
  destruct (handle w0) as [b0 |] eqn:Hb0; [| contradiction].
  rewrite (wrap_small i), (wrap_small (vec_len w - i)) in Hrun1 by lia.
  pose proof Hrun1 as Hmove.
  eapply vec_memmove_whole_inv in Hmove; [| exact Hb0 | lia | exact Hbytes].
  destruct Hmove as (_ & _ & _ & Hdst & ->).
  assert (Hslot : vec_len w < Z.of_nat (length (slots w0))).
  { unfold slots. rewrite Hb0. lia. }
  destruct (vec_grow_one_more_inv w w0 Hs Hrun0 Hslot) as (p & nc & Hnc & Hfit & ->).
  cbn [handle] in Hb0. injection Hb0 as <-.
  pose proof (fits_lt nc ltac:(lia) Hfit) as Hncmax.
  revert Hrun2. unfold vec_set_len. cbn [handle data hlen hcap origin calls].
  rewrite wrap_small by lia. intros [= <-].
  revert Hrun. unfold vec_store. cbn [handle data hlen hcap origin calls].
  destruct (_ && _); [| discriminate]. intros [= <-].
  unfold sound. cbn [handle data hlen hcap].
  rewrite length_insert, move_slots_length, length_resize, Z2Nat.id
    by (rewrite ?length_resize; lia).
  split_and!; try lia. exact Hfit.
Qed.

Lemma vec_del_wrap w i : vec_del w i = vec_del w (wrap i).
Proof. unfold vec_del. now rewrite wrap_wrap. Qed.

Lemma vec_del_keeps_tidy w i w' :
  tidy w -> vec_del w i = Ok w' -> tidy w'.
Proof.
  intros (Hs & Hall) Hrun. rewrite vec_del_wrap in Hrun.
  pose proof (wrap_range i) as Hi.
  destruct (Z.lt_ge_cases (wrap i) (vec_len w)) as [Hlt | Hge].
  - destruct (vec_del_spec w (wrap i) Hs ltac:(lia)) as (w'' & Hd & Hs'' & _ & Hlive & _).
    rewrite Hrun in Hd. injection Hd as <-. split; [exact Hs'' |].
    rewrite Hlive. apply Forall_app. split; [now apply Forall_take | now apply Forall_drop].
  - rewrite vec_del_noop in Hrun by (rewrite wrap_wrap; lia).
    injection Hrun as <-. now split.
Qed.

Lemma vec_pop_keeps_tidy w w' :
  tidy w -> 0 < vec_len w -> vec_pop w = Ok w' -> tidy w'.
Proof.
  intros (Hs & Hall) Hpos Hrun.
  destruct (vec_pop_spec w Hs Hpos) as (w'' & Hp & Hs'' & Hl & _ & Hd & _).
  rewrite Hrun in Hp. injection Hp as <-. split; [exact Hs'' |].
  unfold live in *. rewrite Hl, Hd.
  replace (Z.to_nat (vec_len w - 1)) with (Z.to_nat (vec_len w - 1) `min` Z.to_nat (vec_len w))%nat
    by lia.
  rewrite <- take_take. now apply Forall_take.
Qed.

Lemma vec_clear_keeps_tidy w w' :
  tidy w -> vec_clear w = Ok w' -> tidy w'.
Proof.
  intros (Hs & Hall) Hrun.
  destruct (vec_clear_spec w) as (w'' & Hc & Hl & _ & _ & _ & _ & Hs'').
  rewrite Hrun in Hc. injection Hc as <-. split; [exact (Hs'' Hs) |].
  unfold live. rewrite Hl. constructor.
Qed.

Lemma vec_trim_keeps_tidy w w' :
  tidy w -> vec_trim w = Ok w' -> tidy w'.
Proof.
  intros (Hs & Hall) Hrun.
  destruct (vec_trim_ok w w' Hs Hrun) as (Hc & Hl & Hlive & Hnoop).
  split; [| now rewrite Hlive].
  destruct (sound_bounds w Hs) as (Hlen & Hmax & Hslots).
  unfold vec_trim in Hrun. destruct (handle w) as [b |] eqn:Hh.
  - destruct (Z.ltb_spec (vec_len w) (vec_cap w)) as [Hslack | Hexact].
    + assert (Hfit : fits (vec_len w)).
      { revert Hs Hlen. unfold sound, vec_len, vec_cap. rewrite Hh.
        intros (_ & _ & Hfit) Hlen. apply (fits_mono (hcap b)); [lia | exact Hfit]. }
      apply vec_realloc_fits_inv in Hrun as (p & ->); [| lia | exact Hfit].
      unfold sound. cbn [handle data hlen hcap].
      rewrite length_resize, Z2Nat.id by lia. split_and!; try lia. exact Hfit.
    + injection Hrun as <-. exact Hs.
  - injection Hrun as <-. exact Hs.
Qed.

(** [vec_init] with a request that covers the length, twice of which
    fits in [size_t]. *)
Lemma vec_init_keeps_sound w r w' :
  sound w -> vec_len w <= r -> fits (2 * r) ->
  vec_init w r = Ok w' ->
  sound w' /\ live w' = live w /\ vec_len w' = vec_len w /\ r <= vec_cap w'.
Proof.
  intros Hs Hr Hfit2 Hrun.
  destruct (sound_bounds w Hs) as (Hlen & Hmax & Hslots).
  assert (Hfit : fits r) by (apply (fits_mono (2 * r)); [lia | exact Hfit2]).
  pose proof (fits_lt (2 * r) ltac:(lia) Hfit2) as Hrmax.
  assert (Hshape : exists p nc c,
            r <= nc /\ fits nc /\
            w' = World (Some (Block p (vec_len w) nc (resize (Z.to_nat nc) None (slots w))))
                       (c :: calls w)).
  { unfold vec_init in Hrun. destruct (handle w) as [b |] eqn:Hh.
    - assert (Hl : hlen b = vec_len w) by (unfold vec_len; now rewrite Hh).
      assert (Hc : hcap b = vec_cap w) by (unfold vec_cap; now rewrite Hh).
      destruct (Z.lt_ge_cases (vec_cap w) r) as [Hshort | Henough].
      + rewrite (vec_grow_short w b), wrap_small, Hl, Hc in Hrun
          by (rewrite ?wrap_small; lia || assumption).
        apply outcome_bind_ok in Hrun as (nc & Hnc & Hrun).
        apply vec_new_cap_below_double in Hnc; [| lia].
        assert (Hfitnc : fits nc) by (apply (fits_mono (2 * r)); [lia | exact Hfit2]).
        apply vec_realloc_fits_inv in Hrun as (p & ->); [| lia | exact Hfitnc].
        exists p, nc. eexists. split_and!; [lia | exact Hfitnc | reflexivity].
      + rewrite (vec_grow_enough w b), wrap_small, Hl in Hrun
          by (rewrite ?wrap_small; lia || assumption).
        apply vec_realloc_fits_inv in Hrun as (p & ->); [| lia | exact Hfit].
        exists p, r. eexists. split_and!; [lia | exact Hfit | reflexivity].
    - assert (Hl : vec_len w = 0) by (unfold vec_len; now rewrite Hh).
      rewrite vec_grow_null, wrap_small in Hrun by (assumption || lia).
      apply vec_realloc_fits_inv in Hrun as (p & ->); [| lia | exact Hfit].
      exists p, r. eexists. rewrite Hl. split_and!; [lia | exact Hfit | reflexivity]. }
  destruct Hshape as (p & nc & c & Hnc & Hfitnc & ->).
  assert (Hlive : live (World (Some (Block p (vec_len w) nc
                     (resize (Z.to_nat nc) None (slots w)))) (c :: calls w)) = live w).
  { unfold live. cbn [vec_len slots handle data hlen]. apply take_grown; lia. }
  split.
  - unfold sound. cbn [handle data hlen hcap].
    rewrite length_resize, Z2Nat.id by lia. split_and!; try lia. exact Hfitnc.
  - split_and!; [exact Hlive | reflexivity | exact Hnc].
Qed.

Lemma vec_init_keeps_tidy w r w' :
  tidy w -> vec_len w <= r -> fits (2 * r) -> vec_init w r = Ok w' -> tidy w'.
Proof.
  intros (Hs & Hall) Hr Hfit Hrun.
  destruct (vec_init_keeps_sound w r w' Hs Hr Hfit Hrun) as (Hs' & Hlive & _).
  split; [exact Hs' | now rewrite Hlive].
Qed.

Lemma vec_push_keeps_tidy w x w' :
  tidy w -> vec_push w x = Ok w' -> tidy w'.
Proof.
  intros (Hs & Hall) Hrun. split; [exact (vec_push_keeps_sound w x w' Hs Hrun) |].
  destruct (vec_push_ok w x w' Hs Hrun) as (_ & -> & _).
  apply Forall_app. split; [exact Hall |]. repeat constructor. eauto.
Qed.

Lemma vec_ins_keeps_tidy w i x w' :
  tidy w -> 0 <= i <= vec_len w -> vec_ins w i x = Ok w' -> tidy w'.
Proof.
  intros (Hs & Hall) Hi Hrun. split; [exact (vec_ins_keeps_sound w i x w' Hs Hi Hrun) |].
  destruct (vec_ins_ok w i x w' Hs Hi Hrun) as (_ & -> & _).
  apply Forall_app. split; [now apply Forall_take |].
  constructor; [eauto | now apply Forall_drop].
Qed.

Lemma exec_keeps_tidy o w w' :
  tidy w -> in_contract_fitting o w -> exec o w = Ok w' -> tidy w'.
Proof.
  intros Ht Hallowed Hrun.
  destruct o as [cap | x | | i x | i | |];
    cbn [exec in_contract_fitting in_contract] in *.
  - destruct Hallowed as (Hcap & Hfit).
    exact (vec_init_keeps_tidy w cap w' Ht Hcap Hfit Hrun).
  - exact (vec_push_keeps_tidy w x w' Ht Hrun).
  - exact (vec_pop_keeps_tidy w w' Ht Hallowed Hrun).
  - exact (vec_ins_keeps_tidy w i x w' Ht Hallowed Hrun).
  - exact (vec_del_keeps_tidy w i w' Ht Hrun).
  - exact (vec_trim_keeps_tidy w w' Ht Hrun).
  - exact (vec_clear_keeps_tidy w w' Ht Hrun).
Qed.

(** ** Which block the handle points into *)

Lemma handle_addr_free w w' :
  vec_free w' = vec_free w -> handle_addr w' = handle_addr w.
Proof.
  unfold vec_free, handle_addr. destruct (handle w'), (handle w); cbn; congruence.
Qed.

Lemma vec_set_len_same_block w n w' :
  vec_set_len w n = Ok w' ->
  vec_free w' = vec_free w /\ calls w' = calls w /\ vec_cap w' = vec_cap w.
Proof.
  unfold vec_set_len, vec_free, vec_cap.
  destruct (handle w) as [b |]; [| discriminate]. intros [= <-]. now cbn.
Qed.

Lemma vec_store_same_block w i x w' :
  vec_store w i x = Ok w' ->
  vec_free w' = vec_free w /\ calls w' = calls w /\ vec_cap w' = vec_cap w.
Proof.
  unfold vec_store, vec_free, vec_cap.
  destruct (handle w) as [b |]; [| discriminate].
  destruct (_ && _); [| discriminate]. intros [= <-]. now cbn.
Qed.

Lemma vec_memmove_same_block w dst src n w' :
  vec_memmove w dst src n = Ok w' ->
  vec_free w' = vec_free w /\ calls w' = calls w /\ vec_cap w' = vec_cap w.
Proof.
  unfold vec_memmove, vec_free, vec_cap.
  destruct (handle w) as [b |]; [| discriminate].
  destruct (_ && _); [| discriminate]. intros [= <-]. now cbn.
Qed.

Lemma vec_realloc_owns w c n w' :
  vec_free w = newest_block (calls w) -> chained (calls w) ->
  vec_realloc w c n = Ok w' ->
  vec_free w' = newest_block (calls w') /\ chained (calls w').
Proof.
  intros Hfree Hchain. unfold vec_realloc.
  destruct (VEC_REALLOC _) as [p |] eqn:Hp; [| discriminate].
  destruct (_ <? _); [discriminate |]. cbn. intros [= <-].
  cbn [vec_free handle origin calls fmap option_fmap option_map newest_block chained fst].
  rewrite Hp. split; [reflexivity |]. split; [exact Hfree | exact Hchain].
Qed.

Lemma vec_grow_owns w r w' :
  vec_free w = newest_block (calls w) -> chained (calls w) ->
  vec_grow w r = Ok w' ->
  vec_free w' = newest_block (calls w') /\ chained (calls w').
Proof.
  intros Hfree Hchain Hrun. unfold vec_grow in Hrun.
  apply outcome_bind_ok in Hrun as (nc & _ & Hrun).
  exact (vec_realloc_owns w nc _ w' Hfree Hchain Hrun).
Qed.

Lemma exec_owns o w w' :
  vec_free w = newest_block (calls w) -> chained (calls w) ->
  exec o w = Ok w' ->
  vec_free w' = newest_block (calls w') /\ chained (calls w').
Proof.
  intros Hfree Hchain Hrun.
  destruct o as [cap | x | | i x | i | |]; cbn [exec] in Hrun.
  - exact (vec_grow_owns w cap w' Hfree Hchain Hrun).
  - unfold vec_push in Hrun. bind_inv Hrun.
    apply vec_set_len_same_block in Hrun as (-> & -> & _).
    apply vec_store_same_block in Hrun1 as (-> & -> & _).
    destruct (_ || _).
    + exact (vec_grow_owns w _ w0 Hfree Hchain Hrun0).
    + injection Hrun0 as <-. now split.
  - unfold vec_pop in Hrun.
    apply vec_set_len_same_block in Hrun as (-> & -> & _). now split.
  - unfold vec_ins in Hrun. bind_inv Hrun.
    apply vec_store_same_block in Hrun as (-> & -> & _).
    apply vec_set_len_same_block in Hrun2 as (-> & -> & _).
    apply vec_memmove_same_block in Hrun1 as (-> & -> & _).
    exact (vec_grow_owns w _ w0 Hfree Hchain Hrun0).
  - unfold vec_del in Hrun. destruct (handle w) as [b |] eqn:Hh.
    + destruct (_ <? _).
      * bind_inv Hrun.
        apply vec_memmove_same_block in Hrun as (-> & -> & _).
        apply vec_set_len_same_block in Hrun0 as (-> & -> & _). now split.
      * injection Hrun as <-. now split.
    + injection Hrun as <-. now split.
  - unfold vec_trim in Hrun. destruct (handle w) as [b |] eqn:Hh.
    + destruct (_ <? _).
      * exact (vec_realloc_owns w _ _ w' Hfree Hchain Hrun).
      * injection Hrun as <-. now split.
    + injection Hrun as <-. now split.
  - unfold vec_clear in Hrun. destruct (handle w) as [b |] eqn:Hh.
    + apply vec_set_len_same_block in Hrun as (-> & -> & _). now split.
    + injection Hrun as <-. now split.
Qed.

(** X1. Every buffer that operations within the contract reach from the
    null handle (any push, removal, trim or clear; pop of a non-empty
    buffer; insertion at an index from 0 to the length; init with a
    request that covers the length and twice of which fits in [size_t])
    is as its header says: the length is between 0 and the capacity, the
    block holds exactly as many slots as the capacity, its size did not
    wrap around, and every live element has been written. *)
Theorem reachable_tidy w :
  reachable in_contract_fitting w ->
  0 <= vec_len w <= vec_cap w /\
  Z.of_nat (length (slots w)) = vec_cap w /\
  fits (vec_cap w) /\
  Forall is_Some (live w).
Proof.
  intros Hreach.
  assert (Ht : tidy w).
  { induction Hreach as [| o w w' _ IH Hallowed Hrun].
    - split; [exact I | constructor].
    - exact (exec_keeps_tidy o w w' IH Hallowed Hrun). }
  destruct Ht as (Hs & Hall). destruct (sound_bounds w Hs) as (Hlen & _ & Hslots).
  split_and!; try assumption; try lia.
  revert Hs. unfold sound, vec_cap, fits, SIZEOF_SIZE_T.
  destruct (handle w) as [b |]; [now intros (_ & _ & Hfit) |].
  intros _. rewrite SIZE_MOD_eq. lia.
Qed.

(** X2. Whatever operations have run since the null handle, inside the
    contract or not, the pointer that [vec_free] hands to [VEC_FREE] is
    the block that the newest call of the allocator returned (and none at
    all if there was no call), and every call of the allocator was given
    the block of the call before it: no block is left behind. *)
Theorem reachable_owns_newest_block w :
  reachable any_op w ->
  vec_free w = newest_block (calls w) /\ chained (calls w).
Proof.
  induction 1 as [| o w w' _ [Hfree Hchain] _ Hrun].
  - now split.
  - exact (exec_owns o w w' Hfree Hchain Hrun).
Qed.

(** X3. [vec_pop], [vec_del] and [vec_clear] never call the allocator
    and never move the buffer: whenever one of them returns, on any
    buffer, the calls, the handle and the capacity are what they were. *)
Theorem shrinking_keeps_block w w' i :
  vec_pop w = Ok w' \/ vec_del w i = Ok w' \/ vec_clear w = Ok w' ->
  calls w' = calls w /\ handle_addr w' = handle_addr w /\ vec_cap w' = vec_cap w.
Proof.
  assert (Hadd : forall u u', vec_free u' = vec_free u /\ calls u' = calls u /\
                              vec_cap u' = vec_cap u ->
                              calls u' = calls u /\ handle_addr u' = handle_addr u /\
                              vec_cap u' = vec_cap u).
  { intros u u' (Hf & Hc & Hcap). split_and!; try assumption. now apply handle_addr_free. }
  intros [Hrun | [Hrun | Hrun]]; apply Hadd.
  - unfold vec_pop in Hrun. exact (vec_set_len_same_block _ _ _ Hrun).
  - unfold vec_del in Hrun. destruct (handle w) as [b |] eqn:Hh.
    + destruct (_ <? _).
      * bind_inv Hrun.
        apply vec_memmove_same_block in Hrun as (-> & -> & ->).
        exact (vec_set_len_same_block _ _ _ Hrun0).
      * injection Hrun as <-. now split_and!.
    + injection Hrun as <-. now split_and!.
  - unfold vec_clear in Hrun. destruct (handle w) as [b |] eqn:Hh.
    + exact (vec_set_len_same_block _ _ _ Hrun).
    + injection Hrun as <-. now split_and!.
Qed.

(** ** The growth policy, seen from outside *)

Lemma vec_grow_cap_bound w r w' :
  0 <= vec_cap w -> 0 <= r < SIZE_MOD ->
  vec_grow w r = Ok w' ->
  r <= vec_cap w' <= 2 * r /\ (VEC_GROW_RATE = 1 -> vec_cap w' = r).
Proof.
  intros Hcap Hr Hrun. unfold vec_grow in Hrun.
  apply outcome_bind_ok in Hrun as (nc & Hnc & Hrun).
  apply vec_realloc_ok in Hrun as (_ & -> & _).
  rewrite wrap_small in Hnc by exact Hr.
  revert Hcap Hnc. unfold vec_cap. destruct (handle w) as [b |].
  - intros Hcap. destruct (Z.ltb_spec (hcap b) r).
    + intros Hnc. pose proof (vec_new_cap_below_double (hcap b) r nc ltac:(lia) Hnc).
      split; [lia |]. intros Hrate.
      rewrite vec_new_cap_exact in Hnc by exact Hrate. now injection Hnc.
    + intros [= <-]. split; [lia | reflexivity].
  - intros _ [= <-]. split; [lia | reflexivity].
Qed.

(** X4. [vec_grow], and so [vec_init], ensures room for the request and
    keeps what is there: on a sound buffer, for a request that covers the
    length and twice of which fits in [size_t], whenever it returns the
    live elements and the length are unchanged, the result is sound, and
    the capacity is at least the request and at most twice the request,
    and exactly the request under the exact-fit policy. *)
Theorem vec_grow_ensures_capacity w r w' :
  sound w -> vec_len w <= r -> fits (2 * r) ->
  vec_grow w r = Ok w' ->
  sound w' /\ live w' = live w /\ vec_len w' = vec_len w /\
  r <= vec_cap w' <= 2 * r /\ (VEC_GROW_RATE = 1 -> vec_cap w' = r).
Proof.
  intros Hs Hr Hfit Hrun.
  destruct (sound_bounds w Hs) as (Hlen & _).
  pose proof (fits_lt (2 * r) ltac:(lia) Hfit) as Hmax.
  destruct (vec_init_keeps_sound w r w' Hs Hr Hfit Hrun) as (Hs' & Hlive & Hl & _).
  destruct (vec_grow_cap_bound w r w' ltac:(lia) ltac:(lia) Hrun) as (Hb & Hexact).
  now split_and!.
Qed.

Lemma pow2_wraps_below k i req :
  0 <= k <= 63 -> 0 <= i -> 2 ^ 63 < req -> wrap (2 ^ k * 2 ^ i) < req.
Proof.
  intros Hk Hi Hreq. rewrite <- Z.pow_add_r by lia.
  destruct (Z.le_gt_cases (k + i) 63) as [Hle | Hgt].
  - pose proof (Z.pow_le_mono_r 2 (k + i) 63 ltac:(lia) Hle) as Hpow.
    rewrite wrap_small; [lia |].
    split; [apply Z.pow_nonneg; lia |].
    rewrite SIZE_MOD_eq. change (2 ^ 63) with 9223372036854775808 in Hpow. lia.
  - replace (k + i) with ((k + i - 64) + 64) by lia.
    rewrite Z.pow_add_r by lia. change (2 ^ 64) with SIZE_MOD.
    unfold wrap. rewrite Z.mod_mul by (rewrite SIZE_MOD_eq; lia).
    change (2 ^ 63) with 9223372036854775808 in Hreq. lia.
Qed.

(** X5. Under the doubling policy [vec_grow] does not return from a
    request above [2 ^ 63] on a block whose capacity is 0 or a power of
    two below the request: the counter of [vec_new_cap] wraps around to 0
    and the loop runs for ever, whatever the fuel. *)
Theorem vec_grow_spins_above_half w b r k :
  VEC_GROW_RATE <> 1 ->
  handle w = Some b -> hcap b = 0 \/ hcap b = 2 ^ k /\ 0 <= k <= 63 ->
  2 ^ 63 < r < SIZE_MOD ->
  (forall fuel : nat,
     new_cap_loop fuel (if hcap b =? 0 then 1 else hcap b) r = Diverge) /\
  vec_grow w r = Diverge /\ vec_init w r = Diverge.
Proof.
  intros Hrate Hh Hcap Hr.
  assert (Hstart : exists j, 0 <= j <= 63 /\ (if hcap b =? 0 then 1 else hcap b) = 2 ^ j).
  { destruct Hcap as [-> | (-> & Hk)].
    - exists 0. split; [lia | reflexivity].
    - exists k. split; [exact Hk |].
      assert (0 < 2 ^ k) by (apply Z.pow_pos_nonneg; lia).
      destruct (Z.eqb_spec (2 ^ k) 0); [lia | reflexivity]. }
  destruct Hstart as (j & Hj & Hstart).
  assert (Hloop : forall fuel : nat,
            new_cap_loop fuel (if hcap b =? 0 then 1 else hcap b) r = Diverge).
  { intros fuel. rewrite Hstart. apply new_cap_loop_below.
    - split; [apply Z.pow_nonneg; lia |].
      pose proof (Z.pow_le_mono_r 2 j 63 ltac:(lia) ltac:(lia)) as Hpow.
      rewrite SIZE_MOD_eq. change (2 ^ 63) with 9223372036854775808 in Hpow. lia.
    - intros i Hi. apply pow2_wraps_below; lia. }
  assert (Hbelow : hcap b < r).
  { destruct Hcap as [-> | (-> & Hk)].
    - change (2 ^ 63) with 9223372036854775808 in Hr. lia.
    - pose proof (Z.pow_le_mono_r 2 k 63 ltac:(lia) ltac:(lia)). lia. }
  assert (Hgrow : vec_grow w r = Diverge).
  { rewrite (vec_grow_short w b r Hh), wrap_small
      by (rewrite ?wrap_small; change (2 ^ 63) with 9223372036854775808 in Hr; lia).
    unfold vec_new_cap. destruct (Z.eqb_spec VEC_GROW_RATE 1); [contradiction |].
    now rewrite Hloop. }
  split_and!; [exact Hloop | exact Hgrow | exact Hgrow].
Qed.

(** X6. Under the exact-fit policy every push from the null handle
    reallocates: whenever pushing the elements of a list onto the null
    handle returns, the capacity equals the length [N] of the list and the
    allocator has been called [N] times. The pushes return as soon as the
    allocator returns a block each time and [N] slots fit in [size_t]. *)
Theorem vec_push_all_exact_fit xs :
  VEC_GROW_RATE = 1 ->
  (forall w',
     vec_push_all null_world xs = Ok w' ->
     vec_len w' = Z.of_nat (length xs) /\
     vec_cap w' = Z.of_nat (length xs) /\
     length (calls w') = length xs /\
     live w' = Some <$> xs) /\
  (never_fails -> fits (Z.of_nat (length xs)) ->
   exists w', vec_push_all null_world xs = Ok w').
Proof.
  intros Hrate.
  assert (Hnext : forall c, next_cap c = c + 1).
  { intros c. unfold next_cap. now rewrite Hrate. }
  assert (Hstep : forall ys w w',
            sound w -> vec_cap w = vec_len w ->
            vec_push_all w ys = Ok w' ->
            sound w' /\ vec_cap w' = vec_len w' /\
            vec_len w' = vec_len w + Z.of_nat (length ys) /\
            length (calls w') = (length ys + length (calls w))%nat /\
            live w' = live w ++ (Some <$> ys)).
  { induction ys as [| y ys IH]; intros w w' Hs Hfull Hrun; cbn [vec_push_all] in Hrun.
    - injection Hrun as <-. cbn [length fmap list_fmap]. rewrite app_nil_r.
      split_and!; try assumption; try reflexivity. lia.
    - bind_inv Hrun. destruct (sound_bounds w Hs) as (Hlen & Hmax & _).
      assert (Hf : full w) by (rewrite sound_full_iff by exact Hs; lia).
      assert (Hroom : next_cap (vec_cap w) < SIZE_MOD).
      { rewrite Hnext. revert Hs. unfold sound, vec_cap, fits, SIZEOF_SIZE_T.
        pose proof Vvsz_pos. destruct (handle w) as [b |]; [| rewrite SIZE_MOD_eq; lia].
        intros (? & _ & ?). nia. }
      destruct (vec_push_ok_grown w y w0 Hs Hf Hroom Hrun0) as (Hs0 & _ & Hc0 & c & Hcalls0).
      destruct (vec_push_ok w y w0 Hs Hrun0) as (Hl0 & Hlive0 & _).
      rewrite Hnext in Hc0.
      destruct (IH w0 w' Hs0 ltac:(lia) Hrun) as (Hs' & Hc' & Hl' & Hcalls' & Hlive').
      cbn [length]. split_and!; try assumption.
      + lia.
      + rewrite Hcalls', Hcalls0. cbn [length]. lia.
      + rewrite Hlive', Hlive0, <- app_assoc. reflexivity. }
  split.
  - intros w' Hrun.
    destruct (Hstep xs null_world w' I eq_refl Hrun) as (_ & Hc & Hl & Hcalls & Hlive).
    cbn [vec_len null_world handle calls length] in *.
    split_and!; [lia | lia | lia | exact Hlive].
  - intros Hnf.
    assert (Htotal : forall ys w,
              sound w -> vec_cap w = vec_len w ->
              fits (vec_len w + Z.of_nat (length ys)) ->
              exists w', vec_push_all w ys = Ok w').
    { induction ys as [| y ys IH]; intros w Hs Hfull Hfit; cbn [vec_push_all].
      - eauto.
      - destruct (sound_bounds w Hs) as (Hlen & _).
        destruct (vec_push_spec w y Hs) as (w0 & Hpush & Hs0 & Hl0 & _ & _ & Hgrown).
        { intros _. split; [exact Hnf |]. rewrite Hnext, Hfull.
          apply (fits_mono (vec_len w + Z.of_nat (length (y :: ys)))); [cbn [length]; lia |].
          exact Hfit. }
        destruct Hgrown as (_ & Hc0); [rewrite sound_full_iff by exact Hs; lia |].
        rewrite Hnext in Hc0.
        destruct (IH w0 Hs0 ltac:(lia)) as (w' & Hrun).
        { replace (vec_len w0 + Z.of_nat (length ys))
            with (vec_len w + Z.of_nat (length (y :: ys))) by (cbn [length]; lia).
          exact Hfit. }
        exists w'. rewrite Hpush. exact Hrun. }
    intros Hfit. apply Htotal; [exact I | reflexivity |].
    cbn [vec_len null_world handle]. exact Hfit.
Qed.

(** X7. [vec_init] does what it is for: after [vec_init(v, r)] on the
    null handle, up to [r] pushes go without another call of the
    allocator. With an allocator that returns a block and [r] slots that
    fit in [size_t], the one call is the first, the capacity stays [r]
    and the pushed elements are the live ones. *)
Theorem vec_init_then_push_all r xs :
  never_fails -> fits r -> Z.of_nat (length xs) <= r ->
  exists w0 w',
    vec_init null_world r = Ok w0 /\
    vec_push_all w0 xs = Ok w' /\
    calls w' = [(None, r * Vvsz + 16)] /\
    vec_cap w' = r /\ live w' = Some <$> xs.
Proof.
  intros Hnf Hfit Hxs.
  assert (Hr : 0 <= r) by lia.
  pose proof (fits_lt r Hr Hfit) as Hmax.
  destruct (vec_realloc_fits null_world r 0 Hnf Hr Hfit) as [p Hp].
  assert (Hinit : vec_init null_world r =
                  Ok (World (Some (Block p 0 r (resize (Z.to_nat r) None [])))
                            [(None, r * Vvsz + 16)])).
  { unfold vec_init. rewrite vec_grow_null, wrap_small by (reflexivity || lia). exact Hp. }
  assert (Hs0 : sound (World (Some (Block p 0 r (resize (Z.to_nat r) None [])))
                             [(None, r * Vvsz + 16)])).
  { unfold sound. cbn [handle data hlen hcap].
    rewrite length_resize, Z2Nat.id by lia. split_and!; try lia. exact Hfit. }
  destruct (vec_push_all_free xs _ Hs0) as (w' & Hrun & _ & _ & Hlive & Hcalls & Hcap & _).
  { cbn [vec_len vec_cap handle hlen hcap]. lia. }
  eexists. exists w'. split_and!; [exact Hinit | exact Hrun | exact Hcalls | exact Hcap |].
  rewrite Hlive. reflexivity.
Qed.

(** ** Round trips and edges *)

(** X8. [vec_pop] undoes [vec_push]: whenever a push returns on a sound
    buffer, the pop after it returns too and leaves the live elements and
    the length that were there before the push. The capacity that the
    push left stays. *)
Theorem vec_push_pop_round_trip w x w1 :
  sound w -> vec_push w x = Ok w1 ->
  exists w2,
    vec_pop w1 = Ok w2 /\
    live w2 = live w /\ vec_len w2 = vec_len w /\ vec_cap w2 = vec_cap w1.
Proof.
  intros Hs Hpush.
  pose proof (vec_push_keeps_sound w x w1 Hs Hpush) as Hs1.
  destruct (vec_push_ok w x w1 Hs Hpush) as (Hl1 & Hlive1 & _).
  destruct (sound_bounds w Hs) as (Hlen & _).
  pose proof (live_length w Hs) as Hll.
  destruct (vec_pop_spec w1 Hs1 ltac:(lia)) as (w2 & Hpop & _ & Hl2 & Hc2 & Hd2 & _).
  exists w2. split_and!; [exact Hpop | | lia | exact Hc2].
  unfold live at 1. rewrite Hl2, Hd2, Hl1.
  replace (Z.to_nat (vec_len w + 1 - 1))
    with (Z.to_nat (vec_len w) `min` Z.to_nat (vec_len w1))%nat by lia.
  rewrite <- take_take. fold (live w1). rewrite Hlive1.
  now rewrite take_app_length' by lia.
Qed.

(** X9. [vec_pop] does not check for an empty buffer: on the null handle
    it writes through a null pointer, and on an allocated buffer of length
    0 it returns with the length wrapped around to [SIZE_MOD - 1], far
    above the capacity, which it leaves alone. *)
Theorem vec_pop_empty w :
  vec_len w = 0 ->
  (handle w = None -> vec_pop w = Undefined) /\
  (handle w <> None ->
   exists w',
     vec_pop w = Ok w' /\ vec_len w' = SIZE_MOD - 1 /\
     vec_cap w' = vec_cap w /\ slots w' = slots w).
Proof.
  intros Hlen. unfold vec_pop. rewrite Hlen.
  change (wrap (0 - 1)) with (SIZE_MOD - 1).
  unfold vec_set_len, vec_len, vec_cap, slots.
  destruct (handle w) as [b |]; split; intros Hh; try congruence.
  eexists. split; [reflexivity |]. now cbn.
Qed.

Lemma remove_inserted (l : list (option elt)) (i : nat) y :
  (i <= length l)%nat ->
  take i (take i l ++ y :: drop i l) ++ drop (S i) (take i l ++ y :: drop i l) = l.
Proof.
  intros Hi.
  rewrite take_app_length' by (rewrite length_take; lia).
  replace (S i) with (length (take i l) + 1)%nat at 1 by (rewrite length_take; lia).
  rewrite drop_app_add. cbn [drop]. rewrite drop_0. apply take_drop.
Qed.

(** X10. [vec_del] undoes [vec_ins]: whenever an insertion at an index
    from 0 to the length returns on a sound buffer, the removal at the
    same index returns too and leaves the live elements and the length
    that were there before the insertion. *)
Theorem vec_ins_del_round_trip w i x w1 :
  sound w -> 0 <= i <= vec_len w -> vec_ins w i x = Ok w1 ->
  exists w2,
    vec_del w1 i = Ok w2 /\ live w2 = live w /\ vec_len w2 = vec_len w.
Proof.
  intros Hs Hi Hins.
  pose proof (vec_ins_keeps_sound w i x w1 Hs Hi Hins) as Hs1.
  destruct (vec_ins_ok w i x w1 Hs Hi Hins) as (Hl1 & Hlive1 & _).
  pose proof (live_length w Hs) as Hll.
  destruct (vec_del_spec w1 i Hs1 ltac:(lia)) as (w2 & Hdel & _ & Hl2 & Hlive2 & _).
  exists w2. split_and!; [exact Hdel | | lia].
  rewrite Hlive2, Hlive1. apply remove_inserted. lia.
Qed.

(** X11. [vec_ins] undoes [vec_del]: on a sound buffer, removing the
    element at an index below the length and inserting the same value at
    that index again leaves the live elements and the length as they
    were, with an allocator that returns a block. *)
Theorem vec_del_ins_round_trip w i y :
  never_fails -> sound w -> 0 <= i < vec_len w -> vec_get w i = Some y ->
  exists w1 w2,
    vec_del w i = Ok w1 /\ vec_ins w1 i y = Ok w2 /\
    live w2 = live w /\ vec_len w2 = vec_len w.
Proof.
  intros Hnf Hs Hi Hget.
  destruct (sound_bounds w Hs) as (Hlen & _).
  pose proof (live_length w Hs) as Hll.
  destruct (vec_del_spec w i Hs Hi) as (w1 & Hdel & Hs1 & Hl1 & Hlive1 & Hc1 & _).
  destruct (vec_ins_spec w1 i y Hnf Hs1 ltac:(lia) ltac:(lia))
    as (w2 & Hins & _ & Hl2 & Hlive2 & _).
  exists w1, w2. split_and!; [exact Hdel | exact Hins | | lia].
  assert (Hat : live w !! Z.to_nat i = Some (Some y)).
  { rewrite vec_get_live in Hget by lia.
    destruct (live w !! Z.to_nat i) as [e |] eqn:He; [| discriminate].
    cbn in Hget. now rewrite Hget. }
  rewrite Hlive2, Hlive1.
  rewrite take_app_length' by (rewrite length_take; lia).
  rewrite drop_app_length' by (rewrite length_take; lia).
  now apply take_drop_middle.
Qed.


(** X13. A run of pushes appends the list, under either growth policy:
    whenever pushing the elements of a list returns on a sound buffer, the
    result is sound, the length has grown by the length of the list, and
    the live elements are the old ones followed by the list, in order. *)
Theorem vec_push_all_appends xs : forall w w',
  sound w -> vec_push_all w xs = Ok w' ->
  sound w' /\
  vec_len w' = vec_len w + Z.of_nat (length xs) /\
  live w' = live w ++ (Some <$> xs).
Proof.
  induction xs as [| x xs IH]; intros w w' Hs Hrun; cbn [vec_push_all] in Hrun.
  - injection Hrun as <-. cbn [length fmap list_fmap]. rewrite app_nil_r.
    split_and!; [exact Hs | lia | reflexivity].
  - bind_inv Hrun.
    pose proof (vec_push_keeps_sound w x w0 Hs Hrun0) as Hs0.
    destruct (vec_push_ok w x w0 Hs Hrun0) as (Hl0 & Hlive0 & _).
    destruct (IH w0 w' Hs0 Hrun) as (Hs' & Hl' & Hlive').
    cbn [length]. split_and!; [exact Hs' | lia |].
    rewrite Hlive', Hlive0, <- app_assoc. reflexivity.
Qed.

Lemma vec_push_full_calls w x w' :
  full w -> vec_push w x = Ok w' -> exists c, calls w' = c :: calls w.
Proof.
  intros Hf Hrun. unfold vec_push in Hrun.
  rewrite (proj2 (vec_push_test w) Hf) in Hrun. bind_inv Hrun.
  apply vec_set_len_same_block in Hrun as (_ & -> & _).
  apply vec_store_same_block in Hrun1 as (_ & -> & _).
  apply vec_grow_ok in Hrun0 as (_ & _ & _ & Hc). exact Hc.
Qed.

(** X14. [vec_trim] leaves nothing to trim and no room to push: whenever
    it returns on a sound buffer, a second trim changes nothing and calls
    no allocator, and every push that returns after it has called the
    allocator. *)
Theorem vec_trim_then w w1 :
  sound w -> vec_trim w = Ok w1 ->
  vec_trim w1 = Ok w1 /\
  forall x w2, vec_push w1 x = Ok w2 -> exists c, calls w2 = c :: calls w1.
Proof.
  intros Hs Htrim.
  destruct (vec_trim_ok w w1 Hs Htrim) as (Hc & _).
  split.
  - unfold vec_trim. destruct (handle w1); [| reflexivity].
    destruct (Z.ltb_spec (vec_len w1) (vec_cap w1)); [lia | reflexivity].
  - intros x w2. apply vec_push_full_calls. right. lia.
Qed.

(** ** Pointers and loops *)

Lemma ptr_diff_element v i : ptr_diff (v + i * Vvsz) v = Ok i.
Proof.
  unfold ptr_diff. pose proof Vvsz_pos.
  replace (v + i * Vvsz - v) with (i * Vvsz) by lia.
  rewrite Z.mod_mul, Z.div_mul by lia. reflexivity.
Qed.

(** X15. [vec_insp] is [vec_ins] at the element that the pointer points
    to, and so an insertion before [vec_end] is an insertion at the
    length; but with a null handle or a null pointer it does nothing at
    all, where [vec_ins] would allocate. *)
Theorem vec_insp_at w x :
  (forall p, handle w = None -> vec_insp w p x = Ok w) /\
  vec_insp w None x = Ok w /\
  (forall v i, handle_addr w = Some v ->
     vec_insp w (Some (v + i * Vvsz)) x = vec_ins w i x) /\
  (handle w <> None -> vec_insp w (vec_end w) x = vec_ins w (vec_len w) x).
Proof.
  unfold vec_insp, vec_end, handle_addr. split_and!.
  - intros p ->. reflexivity.
  - destruct (handle w); reflexivity.
  - intros v i. destruct (handle w) as [b |]; [| discriminate].
    cbn. intros [= <-]. now rewrite ptr_diff_element.
  - destruct (handle w) as [b |]; [| congruence]. intros _.
    cbn. now rewrite ptr_diff_element.
Qed.

(** X16. [vec_delp] is [vec_del] at the element that the pointer points
    to. On a sound buffer a removal at [vec_end] changes nothing, and on a
    sound buffer that is not empty a removal at [vec_last] is a
    [vec_pop]. *)
Theorem vec_delp_at w :
  sound w ->
  (forall v i, handle_addr w = Some v ->
     vec_delp w (Some (v + i * Vvsz)) = vec_del w i) /\
  vec_delp w (vec_end w) = Ok w /\
  (0 < vec_len w -> vec_delp w (vec_last w) = vec_pop w).
Proof.
  intros Hs. destruct (sound_bounds w Hs) as (Hlen & Hmax & Hslots).
  pose proof Vvsz_pos as Hsz. split_and!.
  - intros v i. unfold vec_delp. intros ->. now rewrite ptr_diff_element.
  - unfold vec_delp, vec_end. destruct (handle_addr w) as [v |]; [| reflexivity].
    cbn. rewrite ptr_diff_element. cbn [bind].
    apply vec_del_noop. rewrite wrap_small; lia.
  - intros Hpos. revert Hlen Hmax Hslots Hpos.
    unfold vec_delp, vec_last, handle_addr, vec_pop, vec_del, vec_len, vec_cap, slots.
    destruct (handle w) as [b |] eqn:Hh; cbn [fmap option_fmap option_map]; [| lia].
    intros Hlen Hmax Hslots Hpos.
    replace (origin b + SIZEOF_SIZE_T * 2 + hlen b * Vvsz - 1 * Vvsz)
      with (origin b + SIZEOF_SIZE_T * 2 + (hlen b - 1) * Vvsz) by lia.
    rewrite ptr_diff_element. cbn [bind].
    rewrite (wrap_small (hlen b - 1)) by lia.
    destruct (Z.ltb_spec (hlen b - 1) (hlen b)); [| lia].
    replace (hlen b - (hlen b - 1)) with 1 by lia.
    rewrite (wrap_small 1) by (rewrite SIZE_MOD_eq; lia).
    change (1 - 1) with 0. rewrite (wrap_small 0) by (rewrite SIZE_MOD_eq; lia).
    unfold vec_set_len. rewrite Hh. cbn [bind].
    erewrite vec_memmove_whole;
      [| reflexivity | cbn [data]; rewrite ?SIZE_MOD_eq; lia ..].
    cbn [data hlen hcap origin calls]. unfold move_slots.
    change (Z.to_nat 0) with 0%nat. rewrite take_0, Nat.add_0_r. cbn [app].
    now rewrite take_drop.
Qed.

Lemma each_from_fold {T : Type} w b (f : option elt -> T -> T) (n : nat) :
  handle w = Some b ->
  forall Vi s,
    0 <= Vi -> Vi + Z.of_nat n <= Z.of_nat (length (data b)) ->
    each_from w f n Vi s =
    Ok (foldl (fun a e => f e a) s (take n (drop (Z.to_nat Vi) (data b)))).
Proof.
  intros Hh. induction n as [| n IH]; intros Vi s HVi Hend; cbn [each_from].
  - now rewrite take_0.
  - unfold vec_load. rewrite Hh.
    destruct (Z.leb_spec 0 Vi); [| lia].
    destruct (Z.ltb_spec Vi (Z.of_nat (length (data b)))); [| lia].
    cbn [andb bind].
    destruct (lookup_lt_is_Some_2 (data b) (Z.to_nat Vi) ltac:(lia)) as [e He].
    rewrite He, (drop_S _ _ _ He). cbn [mjoin option_join take foldl].
    rewrite IH by lia. replace (Z.to_nat (Vi + 1)) with (S (Z.to_nat Vi)) by lia.
    reflexivity.
Qed.

(** X17. [vec_each] calls its function on the live elements, in order of
    index, and on nothing else: on a sound buffer it never reads outside
    the block and returns the fold of the function over the live
    elements, nothing having been called on the null handle; and after a
    push that returns, it does what it did before and then calls the
    function on the pushed element. *)
Theorem vec_each_folds {T : Type} w (f : option elt -> T -> T) s :
  sound w ->
  vec_each w f s = Ok (foldl (fun a e => f e a) s (live w)) /\
  (handle w = None -> vec_each w f s = Ok s) /\
  forall x w1,
    vec_push w x = Ok w1 ->
    vec_each w1 f s = Ok (f (Some x) (foldl (fun a e => f e a) s (live w))).
Proof.
  assert (Hfold : forall u, sound u ->
            vec_each u f s = Ok (foldl (fun a e => f e a) s (live u))).
  { intros u Hu. destruct (sound_bounds u Hu) as (Hlen & _ & Hslots).
    revert Hlen Hslots. unfold vec_each, live, vec_len, vec_cap, slots.
    destruct (handle u) as [b |] eqn:Hh; intros Hlen Hslots.
    - rewrite (each_from_fold u b f _ Hh) by lia. now rewrite drop_0.
    - reflexivity. }
  intros Hs. split_and!.
  - exact (Hfold w Hs).
  - intros Hh. unfold vec_each, vec_len. now rewrite Hh.
  - intros x w1 Hpush.
    rewrite (Hfold w1 (vec_push_keeps_sound w x w1 Hs Hpush)).
    destruct (vec_push_ok w x w1 Hs Hpush) as (_ & -> & _).
    now rewrite foldl_app.
Qed.

Lemma iter_loop_eachp {T : Type} (body : Z -> T -> T) v (n : nat) :
  forall (fuel : nat) Vi s,
    (n < fuel)%nat ->
    iter_loop fuel body (v + Vi * Vvsz) (v + (Vi + Z.of_nat n) * Vvsz) s =
    Ok (eachp_from v body n Vi s).
Proof.
  pose proof Vvsz_pos as Hsz.
  induction n as [| n IH]; intros fuel Vi s Hfuel;
    (destruct fuel as [| fuel]; [lia |]); cbn [iter_loop eachp_from].
  - rewrite Z.add_0_r, Z.eqb_refl. reflexivity.
  - destruct (Z.eqb_spec (v + Vi * Vvsz) (v + (Vi + Z.of_nat (S n)) * Vvsz)); [nia |].
    replace (v + Vi * Vvsz + Vvsz) with (v + (Vi + 1) * Vvsz) by lia.
    replace (Vi + Z.of_nat (S n)) with (Vi + 1 + Z.of_nat n) by lia.
    apply IH. lia.
Qed.

(** X18. The cursor loop [vec_iter] and [vec_eachp] agree: on a buffer
    whose length is not negative, with fuel for more rounds than the
    length, [vec_iter] stops, and it has run its body on the addresses
    that [vec_eachp] hands to its function, in the same order. On the null
    handle neither runs anything. *)
Theorem vec_iter_is_eachp {T : Type} (fuel : nat) w (body : Z -> T -> T) s :
  0 <= vec_len w -> (Z.to_nat (vec_len w) < fuel)%nat ->
  vec_iter fuel w body s = Ok (vec_eachp w body s) /\
  (handle w = None -> vec_eachp w body s = s).
Proof.
  intros Hlen Hfuel. unfold vec_iter, vec_eachp, vec_end, handle_addr.
  destruct (handle w) as [b |]; cbn [fmap option_fmap option_map]; [| now split].
  split; [| discriminate].
  pose proof (iter_loop_eachp body (origin b + SIZEOF_SIZE_T * 2)
                (Z.to_nat (vec_len w)) fuel 0 s Hfuel) as Hloop.
  rewrite Z2Nat.id, Z.mul_0_l, Z.add_0_r, Z.add_0_l in Hloop by lia.
  exact Hloop.
Qed.

Lemma eachp_from_collect v (n : nat) : forall Vi (acc : list Z),
  eachp_from v (fun a l => l ++ [a]) n Vi acc =
  acc ++ ((fun i : nat => v + (Vi + Z.of_nat i) * Vvsz) <$> seq 0 n).
Proof.
  induction n as [| n IH]; intros Vi acc; cbn [eachp_from].
  - cbn. now rewrite app_nil_r.
  - rewrite IH. cbn [seq fmap list_fmap]. rewrite <- app_assoc. cbn [app].
    rewrite Z.add_0_r. do 2 f_equal.
    rewrite <- seq_shift, <- list_fmap_compose. apply list_fmap_ext.
    intros i y _. cbn. f_equal. lia.
Qed.

(** X19. The addresses that [vec_eachp] hands out on a buffer that is not
    empty are the addresses of the elements 0 to length - 1, one element
    size apart: the first is the handle, the last is [vec_last], and
    [vec_end] is not among them. *)
Theorem vec_eachp_addresses w v :
  handle_addr w = Some v -> 0 < vec_len w ->
  vec_eachp w (fun a l => l ++ [a]) [] =
    (fun i : nat => v + Z.of_nat i * Vvsz) <$> seq 0 (Z.to_nat (vec_len w)) /\
  head (vec_eachp w (fun a l => l ++ [a]) []) = Some v /\
  last (vec_eachp w (fun a l => l ++ [a]) []) = vec_last w /\
  forall e, vec_end w = Some e -> ~ elem_of e (vec_eachp w (fun a l => l ++ [a]) []).
Proof.
  intros Hv Hpos. pose proof Vvsz_pos as Hsz.
  assert (Hlist : vec_eachp w (fun a l => l ++ [a]) [] =
            (fun i : nat => v + Z.of_nat i * Vvsz) <$> seq 0 (Z.to_nat (vec_len w))).
  { unfold vec_eachp. rewrite Hv, eachp_from_collect. cbn [app].
    apply list_fmap_ext. intros i y _. reflexivity. }
  rewrite Hlist. unfold vec_last, vec_end. rewrite Hv. cbn [fmap option_fmap option_map].
  destruct (Z.to_nat (vec_len w)) as [| n] eqn:Hn; [lia |].
  split_and!.
  - reflexivity.
  - cbn. f_equal. lia.
  - rewrite seq_S, fmap_app. cbn [fmap list_fmap]. rewrite last_snoc.
    f_equal. lia.
  - intros e [= <-]. rewrite list_elem_of_fmap. intros (i & Heq & Hin).
    apply elem_of_seq in Hin. nia.
Qed.

(** ** A request whose size wraps *)

(** X20. [vec_memsize] wraps: when a first initialisation asks for a
    capacity whose byte size does not fit [size_t], and it returns, the
    header says the capacity that was asked for, but the one block that
    was requested is smaller than that, so it holds fewer slots than the
    capacity and a store to a slot below the capacity lies outside it. It
    does return whenever the allocator gives a block and the wrapped size
    still covers the header. *)
Theorem vec_init_size_wraps r :
  0 <= r < SIZE_MOD -> ~ fits r ->
  (forall w',
     vec_init null_world r = Ok w' ->
     vec_cap w' = r /\ vec_len w' = 0 /\
     calls w' = [(None, vec_memsize r)] /\
     vec_memsize r < r * Vvsz + SIZEOF_SIZE_T * 2 /\
     Z.of_nat (length (slots w')) < vec_cap w' /\
     ~ sound w' /\
     forall x, vec_store w' (Z.of_nat (length (slots w'))) x = Undefined) /\
  (never_fails -> SIZEOF_SIZE_T * 2 <= vec_memsize r ->
   exists w', vec_init null_world r = Ok w').
Proof.
  intros Hr Hbig. pose proof Vvsz_pos as Hsz. unfold fits in Hbig.
  unfold vec_init. rewrite vec_grow_null by reflexivity.
  rewrite (wrap_small r) by lia. split.
  - intros w' Hrun. pose proof (vec_memsize_range r) as Hsize.
    apply vec_realloc_shape in Hrun as (p & k & Hk & ->).
    unfold sound, vec_cap, vec_len, slots, vec_store.
    cbn [handle data hlen hcap origin calls null_world fmap option_fmap option_map].
    rewrite length_resize.
    unfold fits, SIZEOF_SIZE_T in *.
    assert (Z.of_nat k < r) by nia.
    split_and!; try reflexivity; try lia.
    intros x. destruct (Z.ltb_spec (Z.of_nat k) (Z.of_nat k)); [lia |].
    now rewrite andb_false_r.
  - intros Hnf Hhdr. unfold vec_realloc.
    destruct (Hnf ((origin <$> handle null_world, vec_memsize r) :: calls null_world))
      as [p ->].
    destruct (Z.ltb_spec (vec_memsize r) (SIZEOF_SIZE_T * 2)); [lia |].
    eexists. reflexivity.
Qed.

End Vec.

Arguments Block {elt} _ _ _ _.
Arguments World {elt} _ _.
Arguments null_world {elt}.
Arguments origin {elt} _.
Arguments hlen {elt} _.
Arguments hcap {elt} _.
Arguments data {elt} _.
Arguments handle {elt} _.
Arguments calls {elt} _.
Arguments handle_addr {elt} _.
Arguments slots {elt} _.
Arguments vec_len {elt} _.
Arguments vec_cap {elt} _.
Arguments live {elt} _.
Arguments vec_get {elt} _ _.
Arguments vec_set_len {elt} _ _.
Arguments vec_set_cap {elt} _ _.
Arguments vec_store {elt} _ _ _.
Arguments move_slots {elt} _ _ _ _.
Arguments vec_memmove {elt} _ _ _ _ _.
Arguments vec_realloc {elt} _ _ _ _ _.
Arguments vec_grow {elt} _ _ _ _ _.
Arguments vec_init {elt} _ _ _ _ _.
Arguments vec_push {elt} _ _ _ _ _.
Arguments vec_pop {elt} _.
Arguments vec_ins {elt} _ _ _ _ _ _.
Arguments vec_del {elt} _ _ _.
Arguments vec_trim {elt} _ _ _.
Arguments vec_clear {elt} _.
Arguments vec_push_all {elt} _ _ _ _ _.
Arguments vec_pop_n {elt} _ _.
Arguments OpInit {elt} _.
Arguments OpPush {elt} _.
Arguments OpPop {elt}.
Arguments OpIns {elt} _ _.
Arguments OpDel {elt} _.
Arguments OpTrim {elt}.
Arguments OpClear {elt}.
Arguments exec {elt} _ _ _ _ _.
Arguments in_contract {elt} _ _.
Arguments in_contract_init_covers {elt} _ _.
Arguments reachable {elt} _ _ _ _ _.
Arguments reach_null {elt} _ _ _ _.
Arguments reach_step {elt} _ _ _ _ _ _ _.
Arguments sound {elt} _ _.
Arguments full {elt} _.
Arguments doubled {elt} _ _ _.
Arguments vec_last {elt} _ _.
Arguments vec_end {elt} _ _.
Arguments vec_insp {elt} _ _ _ _ _ _.
Arguments vec_delp {elt} _ _ _.
Arguments vec_load {elt} _ _.
Arguments each_from {elt T} _ _ _ _ _.
Arguments vec_each {elt T} _ _ _.
Arguments vec_eachp {elt} _ {T} _ _ _.
Arguments vec_iter {elt} _ {T} _ _ _ _.
Arguments vec_free {elt} _.
Arguments in_contract_fitting {elt} _ _ _.
Arguments any_op {elt} _ _.
Arguments tidy {elt} _ _.

(** * The macros at work

    The statements above, run on a vector of 4-byte elements with the
    default [VEC_GROW_RATE] of 2 and an allocator that always returns a
    fresh block. *)

Lemma bump_realloc_never_fails : never_fails bump_realloc.
Proof. intros l. unfold bump_realloc. eauto. Qed.

Lemma three_is_no_power_of_two : ~ smallest_pow2_ge 3 3.
Proof.
  intros [(k & Hk & H3) _].
  destruct (Z.lt_ge_cases k 2) as [Hlt | Hge].
  - assert (Hk01 : k = 0 \/ k = 1) by lia. destruct Hk01 as [-> | ->]; discriminate H3.
  - pose proof (Z.pow_le_mono_r 2 2 k ltac:(lia) Hge) as Hpow.
    change (2 ^ 2) with 4 in Hpow. lia.
Qed.

(** C1. [vec_grow] is no no-op on a block that is large enough: on the
    buffer that [vec_init(v, 4)] and one [vec_push] leave (length 1,
    capacity 4), [vec_grow(v, 2)] calls the allocator and leaves capacity
    2, and so does [vec_ins], although the capacity 4 exceeded the new
    length 2. *)
Theorem vec_grow_reallocates_roomy_block :
  exists w wg wi : world Z,
    (w0 <- vec_init 4 bump_realloc 2 null_world 4 ;;
     vec_push 4 bump_realloc 2 w0 7) = Ok w /\
    vec_len w = 1 /\ vec_cap w = 4 /\ calls w = [(None, 32)] /\
    vec_grow 4 bump_realloc 2 w 2 = Ok wg /\
    vec_cap wg = 2 /\ calls wg = [(Some 4096, 24); (None, 32)] /\
    vec_ins 4 bump_realloc 2 w 0 9 = Ok wi /\
    vec_len wi = 2 /\ vec_cap wi = 2 /\
    calls wi = [(Some 4096, 24); (None, 32)].
Proof.
  do 3 eexists. split_and!; [vm_compute; reflexivity | reflexivity ..].
Qed.

(** C2, as stated, fails twice. Push, pop, trim leaves a handle that is
    not null with capacity 0; and three pushes followed by [vec_init(v, 1)]
    leave length 3 with capacity 1. *)
Lemma reachable_invariant_counterexample :
  (exists w : world Z,
     reachable 4 bump_realloc 2 in_contract w /\
     vec_cap w = 0 /\ handle w <> None) /\
  (exists w : world Z,
     reachable 4 bump_realloc 2 in_contract w /\
     vec_cap w < vec_len w).
Proof.
  split.
  - exists (World (Some (Block 8192 0 0 [])) [(Some 4096, 16); (None, 20)]).
    split; [| split; [reflexivity | discriminate]].
    apply (reach_step 4 bump_realloc 2 in_contract OpTrim
             (World (Some (Block 4096 0 1 [Some 7])) [(None, 20)]));
      [| exact I | vm_compute; reflexivity].
    apply (reach_step 4 bump_realloc 2 in_contract OpPop
             (World (Some (Block 4096 1 1 [Some 7])) [(None, 20)]));
      [| cbn; lia | vm_compute; reflexivity].
    apply (reach_step 4 bump_realloc 2 in_contract (OpPush 7) null_world);
      [apply reach_null | exact I | vm_compute; reflexivity].
  - exists (World (Some (Block 16384 3 1 [Some 1]))
                  [(Some 12288, 20); (Some 8192, 32); (Some 4096, 24); (None, 20)]).
    split; [| cbn; lia].
    apply (reach_step 4 bump_realloc 2 in_contract (OpInit 1)
             (World (Some (Block 12288 3 4 [Some 1; Some 2; Some 3; None]))
                    [(Some 8192, 32); (Some 4096, 24); (None, 20)]));
      [| exact I | vm_compute; reflexivity].
    apply (reach_step 4 bump_realloc 2 in_contract (OpPush 3)
             (World (Some (Block 8192 2 2 [Some 1; Some 2]))
                    [(Some 4096, 24); (None, 20)]));
      [| exact I | vm_compute; reflexivity].
    apply (reach_step 4 bump_realloc 2 in_contract (OpPush 2)
             (World (Some (Block 4096 1 1 [Some 1])) [(None, 20)]));
      [| exact I | vm_compute; reflexivity].
    apply (reach_step 4 bump_realloc 2 in_contract (OpPush 1) null_world);
      [apply reach_null | exact I | vm_compute; reflexivity].
Qed.

(** C3, as stated, fails: under the doubling policy [vec_init(v, 3)] on
    the null handle leaves capacity 3, which is no power of two, while
    the same request on a block of capacity 0 leaves capacity 4. *)
Lemma vec_grow_null_counterexample :
  (exists w' : world Z,
     vec_init 4 bump_realloc 2 null_world 3 = Ok w' /\
     calls w' = [(None, 28)] /\ vec_cap w' = 3 /\
     ~ smallest_pow2_ge (vec_cap w') 3) /\
  (exists wz wz' : world Z,
     vec_init 4 bump_realloc 2 null_world 0 = Ok wz /\
     handle wz <> None /\ vec_cap wz = 0 /\
     vec_grow 4 bump_realloc 2 wz 3 = Ok wz' /\ vec_cap wz' = 4).
Proof.
  split.
  - eexists. split; [vm_compute; reflexivity |].
    split_and!; [reflexivity | reflexivity | exact three_is_no_power_of_two].
  - do 2 eexists. split; [vm_compute; reflexivity |].
    split_and!; [discriminate | reflexivity | vm_compute; reflexivity | reflexivity].
Qed.

Lemma sound_one_of_one : sound 4 (World (Some (Block 4096 1 1 [Some 5])) [(None, 20)]).
Proof. unfold sound. cbn. split_and!; [lia | lia | reflexivity | vm_compute; reflexivity]. Qed.

Lemma sound_two_of_two :
  sound 4 (World (Some (Block 4096 2 2 [Some 1; Some 2])) [(None, 24)]).
Proof. unfold sound. cbn. split_and!; [lia | lia | reflexivity | vm_compute; reflexivity]. Qed.

Lemma sound_two_of_four :
  sound 4 (World (Some (Block 4096 2 4 [Some 1; Some 2; None; None])) [(None, 32)]).
Proof. unfold sound. cbn. split_and!; [lia | lia | reflexivity | vm_compute; reflexivity]. Qed.

(** C2 at the buffer that one push leaves. *)
Lemma reachable_length_within_capacity_witness :
  vec_len (World (Some (Block 4096 1 1 [Some 7])) [(None, 20)]) <=
  vec_cap (World (Some (Block 4096 1 1 [Some 7])) [(None, 20)]) /\
  (handle (World (Some (Block 4096 1 1 [Some 7])) [(None, 20)]) = None ->
   vec_cap (World (Some (Block 4096 1 1 [Some 7])) [(None, 20)]) = 0).
Proof.
  apply (reachable_length_within_capacity Z 4 bump_realloc 2).
  apply (reach_step 4 bump_realloc 2 in_contract_init_covers (OpPush 7) null_world);
    [apply reach_null | exact I | vm_compute; reflexivity].
Defined.

(** C3 at the request 3. *)
Lemma vec_grow_null_exact_witness :
  exists w' : world Z,
    vec_grow 4 bump_realloc 2 null_world 3 = Ok w' /\
    vec_init 4 bump_realloc 2 null_world 3 = Ok w' /\
    vec_cap w' = 3 /\ vec_len w' = 0 /\ calls w' = [(None, 28)].
Proof.
  destruct (vec_grow_null_exact Z 4 bump_realloc 2 null_world 3)
    as [Hpartial Htotal].
  - reflexivity.
  - vm_compute. split; [discriminate | reflexivity].
  - destruct Htotal as (w' & Hgrow & Hinit);
      [exact bump_realloc_never_fails | vm_compute; reflexivity |].
    destruct (Hpartial w' Hgrow) as (Hcap & Hlen & Hcalls).
    exists w'. split_and!; assumption.
Defined.

(** C4 at a full block of one element. *)
Lemma vec_push_appends_witness :
  exists w' : world Z,
    vec_push 4 bump_realloc 2 (World (Some (Block 4096 1 1 [Some 5])) [(None, 20)]) 7 = Ok w' /\
    vec_len w' = 2 /\ vec_get w' 1 = Some 7 /\ live w' = [Some 5; Some 7].
Proof.
  destruct (vec_push_appends Z 4 bump_realloc 2
              (World (Some (Block 4096 1 1 [Some 5])) [(None, 20)]) 7)
    as [Hpartial Htotal].
  - exact sound_one_of_one.
  - destruct Htotal as (w' & Hrun).
    { intros _. split; [exact bump_realloc_never_fails | vm_compute; reflexivity]. }
    destruct (Hpartial w' Hrun) as (Hlen & Hget & _ & Hlive & _).
    exists w'. split_and!; assumption.
Defined.

(** C5 in the middle of a full block of two elements. *)
Lemma vec_ins_inserts_witness :
  exists w' : world Z,
    vec_ins 4 bump_realloc 2
      (World (Some (Block 4096 2 2 [Some 1; Some 2])) [(None, 24)]) 1 9 = Ok w' /\
    vec_get w' 1 = Some 9 /\ vec_len w' = 3 /\
    live w' = [Some 1; Some 9; Some 2].
Proof.
  destruct (vec_ins_inserts Z 4 bump_realloc 2
              (World (Some (Block 4096 2 2 [Some 1; Some 2])) [(None, 24)]) 1 9)
    as [Hpartial Htotal].
  - exact sound_two_of_two.
  - cbn. lia.
  - destruct Htotal as (w' & Hrun).
    { exact bump_realloc_never_fails. }
    { intros _. vm_compute. reflexivity. }
    destruct (Hpartial w' Hrun) as (Hget & Hlen & _ & _ & Hlive).
    exists w'. split_and!; assumption.
Defined.

(** C6 at the first of two elements, and past the end. *)
Lemma vec_del_removes_witness :
  (exists w' : world Z,
     vec_del 4 (World (Some (Block 4096 2 2 [Some 1; Some 2])) [(None, 24)]) 0 = Ok w' /\
     vec_len w' = 1 /\ live w' = [Some 2]) /\
  vec_del 4 (World (Some (Block 4096 2 2 [Some 1; Some 2])) [(None, 24)]) 2 =
  Ok (World (Some (Block 4096 2 2 [Some 1; Some 2])) [(None, 24)]).
Proof.
  split.
  - destruct (vec_del_removes Z 4
                (World (Some (Block 4096 2 2 [Some 1; Some 2])) [(None, 24)]) 0)
      as [Hbelow _]; [vm_compute; split; [discriminate | reflexivity] |].
    destruct (Hbelow sound_two_of_two) as (w' & Hrun & Hlen & _ & _ & Hlive & _);
      [cbn; lia |].
    exists w'. split_and!; assumption.
  - apply (vec_del_removes Z 4
             (World (Some (Block 4096 2 2 [Some 1; Some 2])) [(None, 24)]) 2);
      [vm_compute; split; [discriminate | reflexivity] | cbn; lia].
Defined.

(** C7 at a block with two free slots, and after one pop. *)
Lemma vec_trim_exact_witness :
  (exists w' : world Z,
     vec_trim 4 bump_realloc
       (World (Some (Block 4096 2 4 [Some 1; Some 2; None; None])) [(None, 32)]) = Ok w' /\
     vec_cap w' = 2 /\ vec_len w' = 2 /\ live w' = [Some 1; Some 2]) /\
  (exists w1 w2 : world Z,
     vec_pop_n 1
       (World (Some (Block 4096 2 4 [Some 1; Some 2; None; None])) [(None, 32)]) = Ok w1 /\
     vec_trim 4 bump_realloc w1 = Ok w2 /\ vec_len w2 = 1 /\ vec_cap w2 = 1).
Proof.
  destruct (vec_trim_exact Z 4 bump_realloc
              (World (Some (Block 4096 2 4 [Some 1; Some 2; None; None])) [(None, 32)]))
    as (Hpartial & Htotal & Hpops).
  - exact sound_two_of_four.
  - split.
    + destruct Htotal as (w' & Hrun); [intros _; exact bump_realloc_never_fails |].
      destruct (Hpartial w' Hrun) as (Hcap & Hlen & Hlive & _).
      exists w'. split_and!; [assumption | rewrite Hcap; exact Hlen | assumption | assumption].
    + destruct (Hpops bump_realloc_never_fails 1%nat) as (w1 & w2 & Hpop & Htrim & Hl & Hc);
        [cbn; lia |].
      exists w1, w2. split_and!; assumption.
Defined.

(** C8 with an allocator that never returns a block: none is asked for. *)
Lemma vec_clear_then_push_reuses_witness :
  exists w0 w' : world Z,
    vec_clear (World (Some (Block 4096 2 4 [Some 1; Some 2; None; None])) [(None, 32)]) = Ok w0 /\
    vec_len w0 = 0 /\
    vec_push_all 4 (fun _ => None) 2 w0 [7; 8; 9; 10] = Ok w' /\
    calls w' = [(None, 32)] /\ vec_cap w' = 4 /\ handle_addr w' = Some 4112 /\
    live w' = [Some 7; Some 8; Some 9; Some 10].
Proof.
  destruct (vec_clear_then_push_reuses Z 4 (fun _ => None) 2
              (World (Some (Block 4096 2 4 [Some 1; Some 2; None; None])) [(None, 32)])
              [7; 8; 9; 10])
    as (w0 & w' & Hclear & Hl0 & _ & _ & Hrun & Hcalls & Hcap & Haddr & _ & Hlive).
  - exact sound_two_of_four.
  - cbn. lia.
  - exists w0, w'. split_and!; assumption.
Defined.

(** C9 with five pushes: capacity 8 after four calls of the allocator. *)
Lemma vec_push_all_doubling_witness :
  exists w' : world Z,
    vec_push_all 4 bump_realloc 2 null_world [1; 2; 3; 4; 5] = Ok w' /\
    vec_len w' = 5 /\ vec_cap w' = 8 /\ length (calls w') = 4%nat.
Proof.
  destruct (vec_push_all_doubling Z 4 bump_realloc 2 [1; 2; 3; 4; 5])
    as [Hpartial Htotal].
  - discriminate.
  - discriminate.
  - destruct Htotal as (w' & Hrun);
      [exact bump_realloc_never_fails | vm_compute; reflexivity |].
    destruct (Hpartial w' Hrun) as (Hlen & _ & Hcap & Hcalls & _).
    exists w'. split_and!; [assumption | assumption | assumption |].
    apply Nat2Z.inj. exact Hcalls.
Defined.

(** C10 at a block with two free slots. *)
Lemma vec_ins_at_end_is_push_witness :
  exists wi wp : world Z,
    vec_ins 4 bump_realloc 2
      (World (Some (Block 4096 2 4 [Some 1; Some 2; None; None])) [(None, 32)]) 2 9 = Ok wi /\
    vec_push 4 bump_realloc 2
      (World (Some (Block 4096 2 4 [Some 1; Some 2; None; None])) [(None, 32)]) 9 = Ok wp /\
    live wi = live wp /\ vec_len wi = 3 /\ vec_len wp = 3.
Proof.
  destruct (vec_ins_at_end_is_push Z 4 bump_realloc 2
              (World (Some (Block 4096 2 4 [Some 1; Some 2; None; None])) [(None, 32)]) 9)
    as [Hpartial Htotal].
  - exact sound_two_of_four.
  - destruct Htotal as (wi & wp & Hins & Hpush).
    { exact bump_realloc_never_fails. }
    { cbn. lia. }
    destruct (Hpartial wi wp Hins Hpush) as (Hlive & Hli & Hlp).
    exists wi, wp. split_and!; assumption.
Defined.

(** ** The further properties at work *)

(** X1 after one push on the null handle. *)
Lemma reachable_tidy_witness :
  0 <= vec_len (World (Some (Block 4096 1 1 [Some 7])) [(None, 20)]) <=
       vec_cap (World (Some (Block 4096 1 1 [Some 7])) [(None, 20)]) /\
  Z.of_nat (length (slots (World (Some (Block 4096 1 1 [Some 7])) [(None, 20)]))) =
    vec_cap (World (Some (Block 4096 1 1 [Some 7])) [(None, 20)]) /\
  fits 4 (vec_cap (World (Some (Block 4096 1 1 [Some 7])) [(None, 20)])) /\
  Forall is_Some (live (World (Some (Block 4096 1 1 [Some 7])) [(None, 20)])).
Proof.
  apply (reachable_tidy Z 4 bump_realloc 2).
  apply (reach_step 4 bump_realloc 2 (in_contract_fitting 4) (OpPush 7) null_world);
    [apply reach_null | exact I | vm_compute; reflexivity].
Defined.

(** X2 after a first initialisation with three slots and a trim. *)
Lemma reachable_owns_newest_block_witness :
  vec_free (World (Some (Block 8192 0 0 ([] : list (option Z))))
                  [(Some 4096, 16); (None, 28)]) =
    newest_block bump_realloc [(Some 4096, 16); (None, 28)] /\
  chained bump_realloc [(Some 4096, 16); (None, 28)].
Proof.
  apply (reachable_owns_newest_block Z 4 bump_realloc 2
           (World (Some (Block 8192 0 0 [])) [(Some 4096, 16); (None, 28)])).
  apply (reach_step 4 bump_realloc 2 any_op OpTrim
           (World (Some (Block 4096 0 3 [None; None; None])) [(None, 28)]));
    [| exact I | vm_compute; reflexivity].
  apply (reach_step 4 bump_realloc 2 any_op (OpInit 3) null_world);
    [apply reach_null | exact I | vm_compute; reflexivity].
Defined.

(** X3 at a pop from a block of two elements. *)
Lemma shrinking_keeps_block_witness :
  calls (World (Some (Block 4096 1 2 [Some 1; Some 2])) [(None, 24)]) =
    calls (World (Some (Block 4096 2 2 [Some 1; Some 2])) [(None, 24)]) /\
  handle_addr (World (Some (Block 4096 1 2 [Some 1; Some 2])) [(None, 24)]) =
    handle_addr (World (Some (Block 4096 2 2 [Some 1; Some 2])) [(None, 24)]) /\
  vec_cap (World (Some (Block 4096 1 2 [Some 1; Some 2])) [(None, 24)]) =
    vec_cap (World (Some (Block 4096 2 2 [Some 1; Some 2])) [(None, 24)]).
Proof.
  apply (shrinking_keeps_block Z 4
           (World (Some (Block 4096 2 2 [Some 1; Some 2])) [(None, 24)])
           (World (Some (Block 4096 1 2 [Some 1; Some 2])) [(None, 24)]) 0).
  left. vm_compute. reflexivity.
Defined.

(** X4 at a block of two slots grown for three elements. *)
Lemma vec_grow_ensures_capacity_witness :
  live (World (Some (Block 8192 2 4 [Some 1; Some 2; None; None]))
              [(Some 4096, 32); (None, 24)]) =
    live (World (Some (Block 4096 2 2 [Some 1; Some 2])) [(None, 24)]) /\
  3 <= vec_cap (World (Some (Block 8192 2 4 [Some 1; Some 2; None; None]))
                      [(Some 4096, 32); (None, 24)]) <= 2 * 3.
Proof.
  destruct (vec_grow_ensures_capacity Z 4 bump_realloc 2
              (World (Some (Block 4096 2 2 [Some 1; Some 2])) [(None, 24)]) 3
              (World (Some (Block 8192 2 4 [Some 1; Some 2; None; None]))
                     [(Some 4096, 32); (None, 24)]))
    as (_ & Hlive & _ & Hcap & _).
  - exact sound_two_of_two.
  - cbn. lia.
  - vm_compute. reflexivity.
  - vm_compute. reflexivity.
  - split; assumption.
Defined.

(** X5 at a block of one slot and a request of 2^63 + 1 slots. *)
Lemma vec_grow_spins_above_half_witness :
  vec_grow 4 bump_realloc 2
    (World (Some (Block 4096 1 1 [Some 5])) [(None, 20)]) 9223372036854775809 = Diverge /\
  vec_init 4 bump_realloc 2
    (World (Some (Block 4096 1 1 [Some 5])) [(None, 20)]) 9223372036854775809 = Diverge.
Proof.
  destruct (vec_grow_spins_above_half Z 4 bump_realloc 2
              (World (Some (Block 4096 1 1 [Some 5])) [(None, 20)])
              (Block 4096 1 1 [Some 5]) 9223372036854775809 0)
    as (_ & Hgrow & Hinit).
  - discriminate.
  - reflexivity.
  - right. split; [reflexivity | lia].
  - vm_compute. split; reflexivity.
  - split; assumption.
Defined.

(** X6 with three pushes under the exact-fit policy. *)
Lemma vec_push_all_exact_fit_witness :
  exists w' : world Z,
    vec_push_all 4 bump_realloc 1 null_world [1; 2; 3] = Ok w' /\
    vec_len w' = 3 /\ vec_cap w' = 3 /\ length (calls w') = 3%nat /\
    live w' = [Some 1; Some 2; Some 3].
Proof.
  destruct (vec_push_all_exact_fit Z 4 bump_realloc 1 [1; 2; 3])
    as [Hpartial Htotal].
  - reflexivity.
  - destruct Htotal as (w' & Hrun);
      [exact bump_realloc_never_fails | vm_compute; reflexivity |].
    exists w'. split; [exact Hrun | exact (Hpartial w' Hrun)].
Defined.

(** X7 with four slots and two pushes. *)
Lemma vec_init_then_push_all_witness :
  exists w0 w' : world Z,
    vec_init 4 bump_realloc 2 null_world 4 = Ok w0 /\
    vec_push_all 4 bump_realloc 2 w0 [1; 2] = Ok w' /\
    calls w' = [(None, 32)] /\ vec_cap w' = 4 /\ live w' = [Some 1; Some 2].
Proof.
  destruct (vec_init_then_push_all Z 4 bump_realloc 2 4 [1; 2])
    as (w0 & w' & Hinit & Hrun & Hcalls & Hcap & Hlive).
  - exact bump_realloc_never_fails.
  - vm_compute. reflexivity.
  - cbn. lia.
  - exists w0, w'. split_and!; assumption.
Defined.

(** X8 at a full block of one element. *)
Lemma vec_push_pop_round_trip_witness :
  exists w2 : world Z,
    vec_pop (World (Some (Block 8192 2 2 [Some 5; Some 9]))
                   [(Some 4096, 24); (None, 20)]) = Ok w2 /\
    live w2 = [Some 5] /\ vec_len w2 = 1 /\ vec_cap w2 = 2.
Proof.
  destruct (vec_push_pop_round_trip Z 4 bump_realloc 2
              (World (Some (Block 4096 1 1 [Some 5])) [(None, 20)]) 9
              (World (Some (Block 8192 2 2 [Some 5; Some 9]))
                     [(Some 4096, 24); (None, 20)]))
    as (w2 & Hpop & Hlive & Hlen & Hcap).
  - exact sound_one_of_one.
  - vm_compute. reflexivity.
  - exists w2. split_and!; assumption.
Defined.

(** X9 at an empty block of one slot. *)
Lemma vec_pop_empty_witness :
  exists w' : world Z,
    vec_pop (World (Some (Block 4096 0 1 [None])) [(None, 20)]) = Ok w' /\
    vec_len w' = SIZE_MOD - 1 /\
    vec_cap w' = 1 /\ slots w' = [None].
Proof.
  destruct (vec_pop_empty Z (World (Some (Block 4096 0 1 [None])) [(None, 20)]))
    as [_ Hblock].
  - reflexivity.
  - apply Hblock. discriminate.
Defined.

(** X10 at the middle of two elements. *)
Lemma vec_ins_del_round_trip_witness :
  exists w2 : world Z,
    vec_del 4 (World (Some (Block 8192 3 4 [Some 1; Some 9; Some 2; None]))
                     [(Some 4096, 32); (None, 24)]) 1 = Ok w2 /\
    live w2 = [Some 1; Some 2] /\ vec_len w2 = 2.
Proof.
  destruct (vec_ins_del_round_trip Z 4 bump_realloc 2
              (World (Some (Block 4096 2 2 [Some 1; Some 2])) [(None, 24)]) 1 9
              (World (Some (Block 8192 3 4 [Some 1; Some 9; Some 2; None]))
                     [(Some 4096, 32); (None, 24)]))
    as (w2 & Hdel & Hlive & Hlen).
  - exact sound_two_of_two.
  - cbn. lia.
  - vm_compute. reflexivity.
  - exists w2. split_and!; assumption.
Defined.

(** X11 at the first of two elements. *)
Lemma vec_del_ins_round_trip_witness :
  exists w1 w2 : world Z,
    vec_del 4 (World (Some (Block 4096 2 2 [Some 1; Some 2])) [(None, 24)]) 0 = Ok w1 /\
    vec_ins 4 bump_realloc 2 w1 0 1 = Ok w2 /\
    live w2 = [Some 1; Some 2] /\ vec_len w2 = 2.
Proof.
  destruct (vec_del_ins_round_trip Z 4 bump_realloc 2
              (World (Some (Block 4096 2 2 [Some 1; Some 2])) [(None, 24)]) 0 1)
    as (w1 & w2 & Hdel & Hins & Hlive & Hlen).
  - exact bump_realloc_never_fails.
  - exact sound_two_of_two.
  - cbn. lia.
  - reflexivity.
  - exists w1, w2. split_and!; assumption.
Defined.


(** X13 with two pushes on a full block of two elements. *)
Lemma vec_push_all_appends_witness :
  vec_len (World (Some (Block 8192 4 4 [Some 1; Some 2; Some 3; Some 4]))
                 [(Some 4096, 32); (None, 24)]) = 2 + 2 /\
  live (World (Some (Block 8192 4 4 [Some 1; Some 2; Some 3; Some 4]))
              [(Some 4096, 32); (None, 24)]) =
    [Some 1; Some 2] ++ [Some 3; Some 4].
Proof.
  destruct (vec_push_all_appends Z 4 bump_realloc 2 [3; 4]
              (World (Some (Block 4096 2 2 [Some 1; Some 2])) [(None, 24)])
              (World (Some (Block 8192 4 4 [Some 1; Some 2; Some 3; Some 4]))
                     [(Some 4096, 32); (None, 24)]))
    as (_ & Hlen & Hlive).
  - exact sound_two_of_two.
  - vm_compute. reflexivity.
  - split; assumption.
Defined.

(** X14 at a block with two free slots. *)
Lemma vec_trim_then_witness :
  vec_trim 4 bump_realloc
    (World (Some (Block 8192 2 2 [Some 1; Some 2])) [(Some 4096, 24); (None, 32)]) =
  Ok (World (Some (Block 8192 2 2 [Some 1; Some 2])) [(Some 4096, 24); (None, 32)]).
Proof.
  destruct (vec_trim_then Z 4 bump_realloc 2
              (World (Some (Block 4096 2 4 [Some 1; Some 2; None; None])) [(None, 32)])
              (World (Some (Block 8192 2 2 [Some 1; Some 2]))
                     [(Some 4096, 24); (None, 32)]))
    as [Hagain _].
  - exact sound_two_of_four.
  - vm_compute. reflexivity.
  - exact Hagain.
Defined.

(** X15 at a pointer to the second of two elements. *)
Lemma vec_insp_at_witness :
  vec_insp 4 bump_realloc 2
    (World (Some (Block 4096 2 2 [Some 1; Some 2])) [(None, 24)]) (Some 4116) 9 =
  vec_ins 4 bump_realloc 2
    (World (Some (Block 4096 2 2 [Some 1; Some 2])) [(None, 24)]) 1 9.
Proof.
  destruct (vec_insp_at Z 4 bump_realloc 2
              (World (Some (Block 4096 2 2 [Some 1; Some 2])) [(None, 24)]) 9)
    as (_ & _ & Hat & _).
  exact (Hat 4112 1 eq_refl).
Defined.

(** X16 at a block of two elements. *)
Lemma vec_delp_at_witness :
  vec_delp 4 (World (Some (Block 4096 2 2 [Some 1; Some 2])) [(None, 24)])
    (vec_end 4 (World (Some (Block 4096 2 2 [Some 1; Some 2])) [(None, 24)])) =
  Ok (World (Some (Block 4096 2 2 [Some 1; Some 2])) [(None, 24)]) /\
  vec_delp 4 (World (Some (Block 4096 2 2 [Some 1; Some 2])) [(None, 24)])
    (vec_last 4 (World (Some (Block 4096 2 2 [Some 1; Some 2])) [(None, 24)])) =
  vec_pop (World (Some (Block 4096 2 2 [Some 1; Some 2])) [(None, 24)]).
Proof.
  destruct (vec_delp_at Z 4
              (World (Some (Block 4096 2 2 [Some 1; Some 2])) [(None, 24)]))
    as (_ & Hend & Hlast).
  - exact sound_two_of_two.
  - split; [exact Hend | apply Hlast; cbn; lia].
Defined.

(** X17 with a sum over two elements of four slots. *)
Lemma vec_each_folds_witness :
  vec_each (World (Some (Block 4096 2 4 [Some 1; Some 2; None; None])) [(None, 32)])
    (fun (e : option Z) (a : Z) => a + default 0 e) 0 = Ok 3.
Proof.
  destruct (vec_each_folds Z 4 bump_realloc 2 (T := Z)
              (World (Some (Block 4096 2 4 [Some 1; Some 2; None; None])) [(None, 32)])
              (fun (e : option Z) (a : Z) => a + default 0 e) 0)
    as (Hfold & _ & _).
  - exact sound_two_of_four.
  - exact Hfold.
Defined.

(** X18 with three rounds of fuel on two elements. *)
Lemma vec_iter_is_eachp_witness :
  vec_iter 4 3 (World (Some (Block 4096 2 2 [Some 1; Some 2])) [(None, 24)])
    (fun (a : Z) (l : list Z) => l ++ [a]) [] = Ok [4112; 4116].
Proof.
  destruct (vec_iter_is_eachp Z 4 (T := list Z) 3
              (World (Some (Block 4096 2 2 [Some 1; Some 2])) [(None, 24)])
              (fun (a : Z) (l : list Z) => l ++ [a]) [])
    as [Hloop _].
  - cbn. lia.
  - cbn. lia.
  - exact Hloop.
Defined.

(** X19 at a block of two elements. *)
Lemma vec_eachp_addresses_witness :
  vec_eachp 4 (World (Some (Block 4096 2 2 [Some 1; Some 2])) [(None, 24)])
    (fun (a : Z) (l : list Z) => l ++ [a]) [] = [4112; 4116] /\
  last (vec_eachp 4 (World (Some (Block 4096 2 2 [Some 1; Some 2])) [(None, 24)])
          (fun (a : Z) (l : list Z) => l ++ [a]) []) =
    vec_last 4 (World (Some (Block 4096 2 2 [Some 1; Some 2])) [(None, 24)]) /\
  ~ elem_of 4120
      (vec_eachp 4 (World (Some (Block 4096 2 2 [Some 1; Some 2])) [(None, 24)])
         (fun (a : Z) (l : list Z) => l ++ [a]) []).
Proof.
  destruct (vec_eachp_addresses Z 4
              (World (Some (Block 4096 2 2 [Some 1; Some 2])) [(None, 24)]) 4112)
    as (Hlist & _ & Hlast & Hend).
  - reflexivity.
  - cbn. lia.
  - split_and!; [exact Hlist | exact Hlast | exact (Hend 4120 eq_refl)].
Defined.

(** X20 at 2^62 elements of four bytes: the size wraps to the header. *)
Lemma vec_init_size_wraps_witness :
  exists w' : world Z,
    vec_init 4 bump_realloc 2 null_world 4611686018427387904 = Ok w' /\
    vec_cap w' = 4611686018427387904 /\ vec_len w' = 0 /\
    calls w' = [(None, 16)] /\
    Z.of_nat (length (slots w')) < vec_cap w'.
Proof.
  destruct (vec_init_size_wraps Z 4 bump_realloc 2 4611686018427387904)
    as [Hpartial Htotal].
  - vm_compute. split; [discriminate | reflexivity].
  - vm_compute. discriminate.
  - destruct Htotal as (w' & Hrun);
      [exact bump_realloc_never_fails | vm_compute; discriminate |].
    destruct (Hpartial w' Hrun) as (Hcap & Hlen & Hcalls & _ & Hslots & _).
    exists w'. split_and!; assumption.
Defined.
